(** * Owner-side orchestration of the encrypted range-query store

    A shallow embedding of [owner.go] (package [db]): the data owner
    encrypts time- and location-tagged records under an attribute-based
    policy, tags them in a searchable index at every level of a depth-64
    binary trie over the 64-bit timestamp, and answers range queries by
    turning the dyadic cover of the interval into search trapdoors.

    Conventions of the embedding.
    - A [uint64] is a [Z] with the wrap-around written out ([uint64]).
    - A Go [error] is a value carrying its message; a call returning
      [(T, error)] whose caller reads the error first is a [result T].
    - The collaborators ([abe.FAME], [mfast.Owner], the gRPC client, the
      bson and json codecs) are a type class: their hidden state
      (randomness, the index store, the remote store) is the abstract
      [World], threaded through every call that can read or change it.
    - A computation is a function from [state] to an [outcome] and a new
      [state]; the state also keeps the [history] of the calls made on the
      collaborators, in order.
    - The [Logger] calls are diagnostics that neither change a result nor
      the control flow, and are left out. *)

From Equations Require Import Equations.
From stdpp Require Import gmap strings list pretty.
From Stdlib Require Import ZArith Lia Zwf Ascii.
Open Scope Z_scope.

(* ================================================================== *)
(** * 1. Range-cover codec *)
(* ================================================================== *)

(** [uint64(x)] for an [int64] (or any integer) [x]. *)
Definition uint64 (x : Z) : Z := x mod 2 ^ 64.

(** A node of the depth-64 binary trie over 64-bit values. *)
Record IndexLabel := mkLabel { level : Z; prefix : Z }.

#[global] Instance IndexLabel_eq_dec : EqDecision IndexLabel.
Proof. solve_decision. Defined.

(** The ancestor chain built by the first loop of [retriveTkns]:
    [for i := 0; i < 64; i++ { kws[i] = makeTimeKW(intTime>>i, i) }],
    before the textual encoding [makeTimeKW]. *)
Definition insertionLabels (value : Z) : list IndexLabel :=
  (fun i => {| level := i; prefix := Z.shiftr value i |}) <$> seqZ 0 64.

(** [fits a b i]: the block of [2^i] leaves starting at [a] is aligned and
    lies inside [[a,b]]. *)
Definition fits (a b i : Z) : bool :=
  (a mod 2 ^ i =? 0) && (a + 2 ^ i - 1 <=? b).

(** The largest level, searched downwards from [n], whose block fits. *)
Fixpoint largestBlock (n : nat) (a b : Z) : Z :=
  match n with
  | O => 0
  | S n' => if fits a b (Z.of_nat n) then Z.of_nat n else largestBlock n' a b
  end.

(** The recursion of [rangeCover] is on the number of leaves left to cover;
    the accessibility proof is guarded so that the function evaluates. *)
#[local] Instance remaining_wf : WellFounded (Zwf 0) :=
  Acc_intro_generator 8 (Zwf_well_founded 0).

(** Modelled from the spec: [getBRCKWs] is declared outside [owner.go]; this
    is the spec's [rangeCover(a, b)]: "repeatedly peel off the largest
    aligned power-of-two block starting at the current lower bound that
    fits inside the remaining range, emit it as an IndexLabel at the
    corresponding level, and continue on the remainder", with levels in
    [[0,63]]. *)
Equations? rangeCover (a b : Z) : list IndexLabel by wf (b + 1 - a) (Zwf 0) :=
  rangeCover a b with Z_le_dec a b => {
    | left _ =>
        let k := largestBlock 63 a b in
        {| level := k; prefix := Z.shiftr a k |} :: rangeCover (a + 2 ^ k) b;
    | right _ => [] }.
Proof.
  assert (Hk : forall n, 0 <= largestBlock n a b).
  { intros n. induction n; simpl largestBlock; [lia|].
    destruct (fits _ _ _); lia. }
  specialize (Hk 63%nat).
  assert (0 < 2 ^ largestBlock 63 a b) by (apply Z.pow_pos_nonneg; lia).
  unfold Zwf. lia.
Qed.

(** A value is below a label when the label is one of its ancestors. *)
Definition covers (v : Z) (l : IndexLabel) : Prop :=
  0 <= level l < 64 /\ prefix l = Z.shiftr v (level l).

#[global] Instance covers_dec v l : Decision (covers v l).
Proof. unfold covers. apply _. Defined.

(* ================================================================== *)
(** * 2. Go values, messages and records *)
(* ================================================================== *)

(** [[]byte] *)
Definition bytes : Type := list Byte.byte.

(** A Go [error], identified by its message ([errors.New], [Error()]). *)
Record error := errors_New { Error : string }.

(** A call returning [(T, error)], read error first. *)
Inductive result (A : Type) : Type :=
| Ok (a : A)
| Err (e : error).
Arguments Ok {A} a.
Arguments Err {A} e.

(** The protobuf messages of the store. A [repeated Document] is a slice of
    pointers, so an entry may be nil. *)
Record Token := mkToken { Token_Binary : bytes }.
Record Document := mkDocument { Document_Binary : bytes }.
Record InsertQuery := mkInsertQuery
  { InsertQuery_Tkns : list Token; InsertQuery_Docs : list (option Document) }.
Record InsertResponse := mkInsertResponse { InsertResponse_Msg : string }.
Record FindQuery := mkFindQuery
  { FindQuery_Fields : list string; FindQuery_Tkns : list Token }.
Record FindResponse := mkFindResponse
  { FindResponse_Msg : string; FindResponse_Docs : list (option Document) }.

(** The generated getters are nil-safe. *)
Definition GetMsg (r : option FindResponse) : string :=
  match r with Some r => FindResponse_Msg r | None => "" end.
Definition GetDocs (r : option FindResponse) : list (option Document) :=
  match r with Some r => FindResponse_Docs r | None => [] end.
Definition GetBinary (d : option Document) : bytes :=
  match d with Some d => Document_Binary d | None => [] end.

(** [time.Time], by what the code observes of it: [Unix()] (an [int64]) and
    its rendering, which also depends on the zone. *)
Record Time := mkTime { Unix : Z; Nanosecond : Z; Zone : string }.

(** [Record] of package [db]. *)
Record Record_ := mkRecord
  { UserId : string; Location : string; Set_ : string; Time_ : Time }.

Record FindBResult := mkFindBResult { FindBResult_UserId : string }.
Record FindB2Result := mkFindB2Result
  { FindB2Result_UserId : string; FindB2Result_Set : string }.

(** [primitive.ObjectID] is [[12]byte]. *)
Definition ObjectID : Type := bytes.

(** The values held by a [bson.M] in this code: what [Insert] stores
    ([primitive.ObjectID], [[]byte]) and what [bson.Unmarshal] yields
    ([primitive.Binary] for binary data, other types otherwise). *)
Inductive bson_value :=
| VObjectID (id : ObjectID)
| VBytes (b : bytes)
| VBinary (Subtype : Byte.byte) (Data : bytes)
| VString (s : string).

Record OwnerConfig := mkOwnerConfig
  { StorePath : string; SetList : list string; ServerAddr : string }.

(* ================================================================== *)
(** * 3. The collaborators *)
(* ================================================================== *)

(** The opaque values of the two cryptographic libraries. *)
Class Carriers := {
  World : Type;
  MSP : Type;
  FAMECipher : Type;
  FAMEPubKey : Type;
  FAMESecKey : Type;
  FAMEAttribKeys : Type;
  UpdateTkn : Type;
  SearchTkn : Type;
  MFastKeys : Type;
}.

Section Records.
Context {K : Carriers}.

Record ownerKeys := mkOwnerKeys { ABEPK : FAMEPubKey; ABESK : FAMESecKey }.

(** The fields of [Owner] that are data; [mfastOwner], [aBE], [conn] and
    [client] are the collaborators of the class below. *)
Record Owner := mkOwner { keys : ownerKeys; config : OwnerConfig }.

(** [DelegatedKeys] and [SearcherConfig] of package [db], with the fields
    the composite literals of [DelegateKeys] and [GenSearcherConfig] set. *)
Record DelegatedKeys := mkDelegatedKeys
  { DelegatedKeys_Set : string;
    DelegatedKeys_MFastKeys : MFastKeys;
    DelegatedKeys_ABEAttrK : FAMEAttribKeys;
    DelegatedKeys_ABEPK : FAMEPubKey }.

Record SearcherConfig := mkSearcherConfig
  { SearcherConfig_SetList : list string;
    SearcherConfig_Keys : DelegatedKeys;
    SearcherConfig_ServerAddr : string }.

(** A call made on a collaborator, with its arguments and what it
    returned. *)
Inductive event :=
| CallGenUpdateTkn (id set : string) (kw : bytes) (op : string)
    (r : result UpdateTkn)
| CallGenSearchTkn (set : string) (kw : bytes) (r : result (option SearchTkn))
| CallDelegateKeys (set : string) (r : result MFastKeys)
| CallBooleanToMSP (policy : string) (convertToOnes : bool) (r : result MSP)
| CallEncrypt (msg : string) (msp : MSP) (pk : FAMEPubKey) (r : result FAMECipher)
| CallGenerateAttribKeys (attrs : list string) (sk : FAMESecKey)
    (r : result FAMEAttribKeys)
| CallDecrypt (c : FAMECipher) (k : FAMEAttribKeys) (pk : FAMEPubKey)
    (r : string * option error)
| RpcInsert (q : InsertQuery) (r : result (option InsertResponse))
| RpcFind (q : FindQuery) (r : result (option FindResponse)).

(** The error a call returned, when its caller reads it. The error of
    [Decrypt] is returned next to a string and is for the caller to read
    or not: it is not counted here. *)
Definition failure (ev : event) : option error :=
  match ev with
  | CallGenUpdateTkn _ _ _ _ (Err e) | CallGenSearchTkn _ _ (Err e)
  | CallDelegateKeys _ (Err e) | CallBooleanToMSP _ _ (Err e)
  | CallEncrypt _ _ _ (Err e) | CallGenerateAttribKeys _ _ (Err e)
  | RpcInsert _ (Err e) | RpcFind _ (Err e) => Some e
  | _ => None
  end.

Definition isRpc (ev : event) : bool :=
  match ev with RpcInsert _ _ | RpcFind _ _ => true | _ => false end.

Definition isUpdate (ev : event) : bool :=
  match ev with CallGenUpdateTkn _ _ _ _ _ => true | _ => false end.

Definition isEncrypt (ev : event) : bool :=
  match ev with CallEncrypt _ _ _ _ => true | _ => false end.

Definition isBooleanToMSP (ev : event) : bool :=
  match ev with CallBooleanToMSP _ _ _ => true | _ => false end.

Definition isSearch (ev : event) : bool :=
  match ev with CallGenSearchTkn _ _ _ => true | _ => false end.

Definition isKeyOrDecrypt (ev : event) : bool :=
  match ev with
  | CallGenerateAttribKeys _ _ _ | CallDecrypt _ _ _ _ => true
  | _ => false
  end.

(** The keyword of a trapdoor request, and the trapdoor it produced. *)
Definition searchedKW (ev : event) : option bytes :=
  match ev with CallGenSearchTkn _ kw _ => Some kw | _ => None end.

Definition presentTkn (ev : event) : option SearchTkn :=
  match ev with CallGenSearchTkn _ _ (Ok (Some t)) => Some t | _ => None end.

(** What a [Decrypt] call returned, error included. *)
Definition decrypted (ev : event) : option (string * option error) :=
  match ev with CallDecrypt _ _ _ r => Some r | _ => None end.
End Records.

Class Collaborators {K : Carriers} := {
  (* github.com/fentec-project/gofe/abe *)
  abe_BooleanToMSP : string -> bool -> result MSP;
  abe_Encrypt : string -> MSP -> FAMEPubKey -> World -> result FAMECipher * World;
  abe_GenerateAttribKeys :
    list string -> FAMESecKey -> World -> result FAMEAttribKeys * World;
  abe_Decrypt : FAMECipher -> FAMEAttribKeys -> FAMEPubKey -> string * option error;
  (* github.com/plzfgme/mfast *)
  mfast_GenUpdateTkn :
    string -> string -> bytes -> string -> World -> result UpdateTkn * World;
  mfast_GenSearchTkn : string -> bytes -> World -> result (option SearchTkn) * World;
  mfast_DelegateKeys : string -> World -> result MFastKeys * World;
  (* bson, json, time *)
  primitive_NewObjectID : World -> ObjectID * World;
  ObjectID_Hex : ObjectID -> string;
  Time_Format_RFC1123 : Time -> string;
  json_Marshal_cipher : FAMECipher -> result bytes;
  json_Marshal_updateTkn : UpdateTkn -> result bytes;
  json_Unmarshal_cipher : bytes -> FAMECipher * option error;
  json_MarshalIndent_config : SearcherConfig -> result bytes;
  bson_Marshal_M : gmap string bson_value -> result bytes;
  bson_Marshal_searchTkn : SearchTkn -> result bytes;
  bson_Unmarshal_M : bytes -> result (gmap string bson_value);
  (* ServerServiceClient *)
  client_Insert : InsertQuery -> World -> result (option InsertResponse) * World;
  client_Find : FindQuery -> World -> result (option FindResponse) * World;
  (* helpers of package db declared outside owner.go *)
  makeTimeKW : Z -> Z -> string;
  getBRCKWs : Z -> Z -> list string;
}.

(* ================================================================== *)
(** * 4. Computations *)
(* ================================================================== *)

Inductive outcome (A : Type) : Type :=
| Ret (a : A)      (* normal return *)
| Fail (e : error) (* [return ..., err] *)
| Panic.           (* run-time panic *)
Arguments Ret {A} a.
Arguments Fail {A} e.
Arguments Panic {A}.

Section Embedding.
Context {K : Carriers} {C : Collaborators}.

(** A computation runs from a world to an outcome, a new world and the
    calls it made on the collaborators, in order. *)
Definition M (A : Type) : Type := World -> outcome A * World * list event.

#[global] Instance M_ret : MRet M := fun A a w => (Ret a, w, []).

#[global] Instance M_bind : MBind M := fun A B f m w =>
  match m w with
  | (Ret a, w1, e1) => let '(o, w2, e2) := f a w1 in (o, w2, e1 ++ e2)
  | (Fail e, w1, e1) => (Fail e, w1, e1)
  | (Panic, w1, e1) => (Panic, w1, e1)
  end.

#[global] Instance M_fmap : FMap M := fun A B f m w =>
  match m w with
  | (Ret a, w1, e1) => (Ret (f a), w1, e1)
  | (Fail e, w1, e1) => (Fail e, w1, e1)
  | (Panic, w1, e1) => (Panic, w1, e1)
  end.

Definition fail {A} (e : error) : M A := fun w => (Fail e, w, []).
Definition panic {A} : M A := fun w => (Panic, w, []).

(** [if err != nil { return ..., err }] *)
Definition try {A} (r : result A) : M A :=
  match r with Ok a => mret a | Err e => fail e end.

Definition ofResult {A} (r : result A) : outcome A :=
  match r with Ok a => Ret a | Err e => Fail e end.

(** The error an outcome carries. *)
Definition raised {A} (o : outcome A) : option error :=
  match o with Fail e => Some e | _ => None end.

(** A call on a collaborator: it may use the world, and is recorded with
    what it returned. *)
Definition invoke {A} (ev : A -> event) (f : World -> A * World) : M A :=
  fun w => let (a, w') := f w in (Ret a, w', [ev a]).

(** A recorded call of a function that does not use the world. *)
Definition observe {A} (ev : A -> event) (a : A) : M A :=
  invoke ev (fun w => (a, w)).

(** A call outside the three collaborators (not recorded). *)
Definition effect {A} (f : World -> A * World) : M A :=
  fun w => let (a, w') := f w in (Ret a, w', []).

(** ** The collaborators' methods as computations *)

Definition GenUpdateTkn (id set : string) (kw : bytes) (op : string) : M UpdateTkn :=
  r ← invoke (CallGenUpdateTkn id set kw op) (mfast_GenUpdateTkn id set kw op); try r.

Definition GenSearchTkn (set : string) (kw : bytes) : M (option SearchTkn) :=
  r ← invoke (CallGenSearchTkn set kw) (mfast_GenSearchTkn set kw); try r.

Definition mfastDelegateKeys (set : string) : M MFastKeys :=
  r ← invoke (CallDelegateKeys set) (mfast_DelegateKeys set); try r.

Definition BooleanToMSP (policy : string) (convertToOnes : bool) : M MSP :=
  r ← observe (CallBooleanToMSP policy convertToOnes)
        (abe_BooleanToMSP policy convertToOnes); try r.

Definition Encrypt (msg : string) (msp : MSP) (pk : FAMEPubKey) : M FAMECipher :=
  r ← invoke (CallEncrypt msg msp pk) (abe_Encrypt msg msp pk); try r.

Definition GenerateAttribKeys (attrs : list string) (sk : FAMESecKey)
  : M FAMEAttribKeys :=
  r ← invoke (CallGenerateAttribKeys attrs sk) (abe_GenerateAttribKeys attrs sk);
  try r.

(** [Decrypt] hands back both components; the caller decides what to read. *)
Definition Decrypt (c : FAMECipher) (k : FAMEAttribKeys) (pk : FAMEPubKey)
  : M (string * option error) :=
  observe (CallDecrypt c k pk) (abe_Decrypt c k pk).

Definition clientInsert (q : InsertQuery) : M (option InsertResponse) :=
  r ← invoke (RpcInsert q) (client_Insert q); try r.

Definition clientFind (q : FindQuery) : M (option FindResponse) :=
  r ← invoke (RpcFind q) (client_Find q); try r.

(** ** [retriveTkns] *)

(** The first loop: the 64 keywords of the record's timestamp. *)
Definition timeKWs (rec : Record_) : list string :=
  let intTime := uint64 (Unix (Time_ rec)) in
  (fun i => makeTimeKW (Z.shiftr intTime i) i) <$> seqZ 0 64.

Definition kwA (rec : Record_) (kw : string) : bytes :=
  String.list_byte_of_string ("A:" +:+ UserId rec +:+ ":" +:+ kw).
Definition kwB (rec : Record_) (kw : string) : bytes :=
  String.list_byte_of_string ("B:" +:+ Location rec +:+ ":" +:+ kw).

(** The second loop: [for _, kw := range kws], appending to [tkns]. *)
Fixpoint updateTkns (id : ObjectID) (rec : Record_) (kws : list string)
    (tkns : list Token) : M (list Token) :=
  match kws with
  | [] => mret tkns
  | kw :: kws' =>
      mfastTknA ← GenUpdateTkn (ObjectID_Hex id) (Set_ rec) (kwA rec kw) "add";
      bMFastTknA ← try (json_Marshal_updateTkn mfastTknA);
      mfastTknB ← GenUpdateTkn (ObjectID_Hex id) (Set_ rec) (kwB rec kw) "add";
      bMFastTknB ← try (json_Marshal_updateTkn mfastTknB);
      updateTkns id rec kws' (tkns ++ [mkToken bMFastTknA; mkToken bMFastTknB])
  end.

Definition retriveTkns (owner : Owner) (id : ObjectID) (rec : Record_)
  : M (list Token) :=
  updateTkns id rec (timeKWs rec) [].

(** The keywords [retriveTkns] asks update tokens for, in the order of the
    calls: for each level, the one under ["A:"] then the one under ["B:"]. *)
Definition tagKWs (rec : Record_) : list bytes :=
  kw ← timeKWs rec; [kwA rec kw; kwB rec kw].

(** ** [Insert] *)

(** One field: [Encrypt] then [json.Marshal]. *)
Definition encryptField (owner : Owner) (msg : string) (msp : MSP) : M bytes :=
  c ← Encrypt msg msp (ABEPK (keys owner));
  try (json_Marshal_cipher c).

(** The body of the loop over [recs], for one record: its tokens and its
    document. *)
Definition encryptRecord (owner : Owner) (rec : Record_)
  : M (list Token * Document) :=
  let newRec : gmap string bson_value := ∅ in
  objId ← effect primitive_NewObjectID;
  let newRec := <["_id" := VObjectID objId]> newRec in
  partTkns ← retriveTkns owner objId rec;
  msp ← BooleanToMSP (Set_ rec) false;
  bUid ← encryptField owner (UserId rec) msp;
  let newRec := <["UserId" := VBytes bUid]> newRec in
  bLoc ← encryptField owner (Location rec) msp;
  let newRec := <["Location" := VBytes bLoc]> newRec in
  bTime ← encryptField owner (Time_Format_RFC1123 (Time_ rec)) msp;
  let newRec := <["Time" := VBytes bTime]> newRec in
  bSet ← encryptField owner (Set_ rec) msp;
  let newRec := <["Set" := VBytes bSet]> newRec in
  bytesRec ← try (bson_Marshal_M newRec);
  mret (partTkns, mkDocument bytesRec).

(** [for i, rec := range recs]: [tkns] grows, [docs[i]] is assigned. *)
Fixpoint encryptRecords (owner : Owner) (i : nat) (recs : list Record_)
    (tkns : list Token) (docs : list (option Document))
  : M (list Token * list (option Document)) :=
  match recs with
  | [] => mret (tkns, docs)
  | rec :: recs' =>
      '(partTkns, doc) ← encryptRecord owner rec;
      encryptRecords owner (S i) recs' (tkns ++ partTkns) (<[i := Some doc]> docs)
  end.

(** The round trip that ends [Insert]. *)
Definition submitInsert (q : InsertQuery) : M unit :=
  res ← clientInsert q;
  match res with
  | None => panic (* [res.Msg] on a nil response *)
  | Some res =>
      if decide (InsertResponse_Msg res = "Ok") then mret tt
      else fail (errors_New (InsertResponse_Msg res))
  end.

(** What the answer of the store makes of [Insert]. *)
Definition insertStatus (r : result (option InsertResponse)) : outcome unit :=
  match r with
  | Err e => Fail e
  | Ok None => Panic
  | Ok (Some res) =>
      if decide (InsertResponse_Msg res = "Ok") then Ret tt
      else Fail (errors_New (InsertResponse_Msg res))
  end.

Definition Insert (owner : Owner) (recs : list Record_) : M unit :=
  '(tkns, docs) ← encryptRecords owner 0 recs [] (replicate (length recs) None);
  submitInsert (mkInsertQuery tkns docs).

(** ** [FindB] and [FindB2] *)

(** [kws[i] = []byte("B:" + loc + ":" + tKW)] *)
Definition rangeKWs (loc : string) (timeA timeB : Time) : list bytes :=
  let tKWs := getBRCKWs (uint64 (Unix timeA)) (uint64 (Unix timeB)) in
  (fun tKW => String.list_byte_of_string ("B:" +:+ loc +:+ ":" +:+ tKW)) <$> tKWs.

(** [for i := range kws]: the trapdoors, absent ones skipped. *)
Fixpoint searchTkns (set : string) (kws : list bytes) (findTkns : list Token)
  : M (list Token) :=
  match kws with
  | [] => mret findTkns
  | kw :: kws' =>
      searchTkn ← GenSearchTkn set kw;
      match searchTkn with
      | None => searchTkns set kws' findTkns
      | Some searchTkn =>
          b ← try (bson_Marshal_searchTkn searchTkn);
          searchTkns set kws' (findTkns ++ [mkToken b])
      end
  end.

(** The round trip of a query. *)
Definition submitFind (q : FindQuery) : M (option FindResponse) :=
  findRes ← clientFind q;
  if decide (GetMsg findRes = "Ok") then mret findRes
  else fail (errors_New (GetMsg findRes)).

(** [json.Unmarshal(doc[field].(primitive.Binary).Data, c)]: the type
    assertion panics unless the field holds a [primitive.Binary]; the
    error of [json.Unmarshal] is not read. *)
Definition fieldCipher (doc : gmap string bson_value) (field : string)
  : M FAMECipher :=
  match doc !! field with
  | Some (VBinary _ data) => mret (json_Unmarshal_cipher data).1
  | _ => panic
  end.

(** The body of the loop over the returned documents, [FindB]. *)
Definition decryptDocB (owner : Owner) (set : string) (bDoc : option Document)
  : M FindBResult :=
  doc ← try (bson_Unmarshal_M (GetBinary bDoc));
  cUserId ← fieldCipher doc "UserId";
  abeAttrK ← GenerateAttribKeys [set] (ABESK (keys owner));
  userId ← Decrypt cUserId abeAttrK (ABEPK (keys owner));
  mret (mkFindBResult userId.1).

(** The body of the loop over the returned documents, [FindB2]. The
    [set, _ := ...] of the source declares a new variable local to the
    iteration: the key is always generated for the parameter [set]. *)
Definition decryptDocB2 (owner : Owner) (set : string) (bDoc : option Document)
  : M FindB2Result :=
  doc ← try (bson_Unmarshal_M (GetBinary bDoc));
  cUserId ← fieldCipher doc "UserId";
  cSet ← fieldCipher doc "Set";
  abeAttrK ← GenerateAttribKeys [set] (ABESK (keys owner));
  userId ← Decrypt cUserId abeAttrK (ABEPK (keys owner));
  set' ← Decrypt cSet abeAttrK (ABEPK (keys owner));
  mret (mkFindB2Result userId.1 set'.1).

(** [for i, bDoc := range bDocs { ... results[i] = &R{...} }] *)
Fixpoint forDocs {R : Type} (body : option Document -> M R) (i : nat)
    (bDocs : list (option Document)) (results : list (option R))
  : M (list (option R)) :=
  match bDocs with
  | [] => mret results
  | bDoc :: bDocs' =>
      r ← body bDoc;
      forDocs body (S i) bDocs' (<[i := Some r]> results)
  end.

Definition FindB (owner : Owner) (set loc : string) (timeA timeB : Time)
  : M (list (option FindBResult)) :=
  findTkns ← searchTkns set (rangeKWs loc timeA timeB) [];
  findRes ← submitFind (mkFindQuery ["UserId"] findTkns);
  let bDocs := GetDocs findRes in
  forDocs (decryptDocB owner set) 0 bDocs (replicate (length bDocs) None).

Definition FindB2 (owner : Owner) (set loc : string) (timeA timeB : Time)
  : M (list (option FindB2Result)) :=
  findTkns ← searchTkns set (rangeKWs loc timeA timeB) [];
  findRes ← submitFind (mkFindQuery ["UserId"; "Set"] findTkns);
  let bDocs := GetDocs findRes in
  forDocs (decryptDocB2 owner set) 0 bDocs (replicate (length bDocs) None).

(** ** The shape of a query *)

(** What the answer of the store makes of a query. *)
Definition findStatus (r : result (option FindResponse))
  : outcome (option FindResponse) :=
  match r with
  | Err e => Fail e
  | Ok findRes =>
      if decide (GetMsg findRes = "Ok") then Ret findRes
      else Fail (errors_New (GetMsg findRes))
  end.

(** The text shared by [FindB] and [FindB2]: everything but the requested
    fields and the body of the last loop. *)
Definition findWith {R : Type} (fields : list string)
    (body : option Document -> M R) (set loc : string) (timeA timeB : Time)
  : M (list (option R)) :=
  findTkns ← searchTkns set (rangeKWs loc timeA timeB) [];
  findRes ← submitFind (mkFindQuery fields findTkns);
  let bDocs := GetDocs findRes in
  forDocs body 0 bDocs (replicate (length bDocs) None).

(** The runs of a loop body over the documents, one after the other, all
    returning. *)
Inductive forEach {R : Type} (body : option Document -> M R)
  : list (option Document) -> World -> list R -> World -> list event -> Prop :=
| forEach_nil w : forEach body [] w [] w []
| forEach_cons d ds w r w1 e1 rs w2 e2 :
    body d w = (Ret r, w1, e1) ->
    forEach body ds w1 rs w2 e2 ->
    forEach body (d :: ds) w (r :: rs) w2 (e1 ++ e2).



(** ** [DelegateKeys] and [GenSearcherConfig] *)

Definition DelegateKeys (owner : Owner) (set : string) : M DelegatedKeys :=
  abeAttrK ← GenerateAttribKeys [set] (ABESK (keys owner));
  mfastKeys ← mfastDelegateKeys set;
  mret {| DelegatedKeys_Set := set;
          DelegatedKeys_MFastKeys := mfastKeys;
          DelegatedKeys_ABEAttrK := abeAttrK;
          DelegatedKeys_ABEPK := ABEPK (keys owner) |}.

Definition GenSearcherConfig (owner : Owner) (set : string) : M string :=
  dk ← DelegateKeys owner set;
  let cfg := {| SearcherConfig_SetList := SetList (config owner);
                SearcherConfig_Keys := dk;
                SearcherConfig_ServerAddr := ServerAddr (config owner) |} in
  jsonCfg ← try (json_MarshalIndent_config cfg);
  mret (String.string_of_list_byte jsonCfg).

(* ================================================================== *)
(** * 5. The query as one algorithm over the requested fields *)
(* ================================================================== *)

(** The spec describes [FindB] and [FindB2] as one operation taking the list
    of requested fields. This is that operation, written from the spec's
    words (with the reading of [Decrypt] the source has); section 8 compares
    it with the two functions of the source. *)

Fixpoint fieldCiphers (doc : gmap string bson_value) (fields : list string)
  : M (list FAMECipher) :=
  match fields with
  | [] => mret []
  | field :: fields' =>
      c ← fieldCipher doc field;
      cs ← fieldCiphers doc fields';
      mret (c :: cs)
  end.

Fixpoint decryptAll (owner : Owner) (k : FAMEAttribKeys) (cs : list FAMECipher)
  : M (list string) :=
  match cs with
  | [] => mret []
  | c :: cs' =>
      p ← Decrypt c k (ABEPK (keys owner));
      ps ← decryptAll owner k cs';
      mret (p.1 :: ps)
  end.

Definition decryptDocFields (owner : Owner) (set : string) (fields : list string)
    (bDoc : option Document) : M (list string) :=
  doc ← try (bson_Unmarshal_M (GetBinary bDoc));
  cs ← fieldCiphers doc fields;
  abeAttrK ← GenerateAttribKeys [set] (ABESK (keys owner));
  decryptAll owner abeAttrK cs.

Definition FindRange (owner : Owner) (fields : list string) (set loc : string)
    (timeA timeB : Time) : M (list (option (list string))) :=
  findTkns ← searchTkns set (rangeKWs loc timeA timeB) [];
  findRes ← submitFind (mkFindQuery fields findTkns);
  let bDocs := GetDocs findRes in
  forDocs (decryptDocFields owner set fields) 0 bDocs
    (replicate (length bDocs) None).

(** The two call shapes of the surface API. *)
Definition asFindBResult (plain : list string) : FindBResult :=
  mkFindBResult (nth 0 plain "").
Definition asFindB2Result (plain : list string) : FindB2Result :=
  mkFindB2Result (nth 0 plain "") (nth 1 plain "").

(** Two returned documents carry the same [UserId] ciphertext. *)
Definition sameUserId (d1 d2 : option Document) : Prop :=
  match bson_Unmarshal_M (GetBinary d2) with
  | Ok m2 => exists m1, bson_Unmarshal_M (GetBinary d1) = Ok m1
                        /\ m1 !! "UserId" = m2 !! "UserId"
  | Err _ => True
  end.

(** The store gives the query for [UserId] the answer it gives the query
    for [UserId] and [Set], up to the fields left out of the documents. *)
Definition answersAlike (tkns : list Token) (w : World) : Prop :=
  match client_Find (mkFindQuery ["UserId"; "Set"] tkns) w with
  | (Ok r2, w2) =>
      GetMsg r2 = "Ok" ->
      exists r1, client_Find (mkFindQuery ["UserId"] tkns) w = (Ok r1, w2)
                 /\ GetMsg r1 = "Ok"
                 /\ Forall2 sameUserId (GetDocs r1) (GetDocs r2)
  | _ => True
  end.

End Embedding.

(* ================================================================== *)
(** * 6. A small concrete world *)
(* ================================================================== *)

(** Collaborators simple enough to run the code on explicit inputs. A
    "ciphertext" is the policy and the plaintext side by side, and a key is
    the list of attributes it was derived for, so that decryption succeeds
    exactly when the policy label is among the attributes. The remote
    store is a parameter. *)

Record ToyStore := mkToyStore {
  toy_insert : InsertQuery -> string;       (* status of an Insert *)
  toy_find : FindQuery -> FindResponse;     (* answer to a Find *)
  toy_indexed : bytes -> bool;              (* keywords with an index entry *)
}.

Definition toyCarriers : Carriers := {|
  World := nat;
  MSP := string;
  FAMECipher := string * string;
  FAMEPubKey := unit;
  FAMESecKey := Z;
  FAMEAttribKeys := list string;
  UpdateTkn := bytes;
  SearchTkn := bytes;
  MFastKeys := string;
|}.

(** [splitOn sep s]: the parts of [s] before and after the first [sep]. *)
Fixpoint splitOn (sep : Ascii.ascii) (s : string) : option (string * string) :=
  match s with
  | EmptyString => None
  | String c s' =>
      if decide (c = sep) then Some (EmptyString, s')
      else match splitOn sep s' with
           | Some (a, b) => Some (String c a, b)
           | None => None
           end
  end.

Definition toy_marshal_cipher (c : string * string) : bytes :=
  String.list_byte_of_string (c.1 +:+ "/" +:+ c.2).

Definition toy_unmarshal_cipher (b : bytes) : (string * string) * option error :=
  match splitOn "/"%char (String.string_of_list_byte b) with
  | Some c => (c, None)
  | None => (("", ""), Some (errors_New "invalid character"))
  end.

Definition toy_decrypt (c : string * string) (k : list string)
  : string * option error :=
  if bool_decide (c.1 ∈ k) then (c.2, None)
  else ("", Some (errors_New "provided key is not sufficient for decryption")).

Definition toy_field (m : gmap string bson_value) (field : string) : bytes :=
  match m !! field with
  | Some (VBytes b) => b
  | _ => []
  end.

(** A toy document is its [UserId] field, then ["|"], then its [Set] field;
    a document restricted to [UserId] has no ["|"]. *)
Definition toy_marshal_M (m : gmap string bson_value) : bytes :=
  toy_field m "UserId" ++ String.list_byte_of_string "|" ++ toy_field m "Set".

Definition toy_unmarshal_M (b : bytes) : gmap string bson_value :=
  match splitOn "|"%char (String.string_of_list_byte b) with
  | Some (u, s) =>
      <["Set" := VBinary Byte.x00 (String.list_byte_of_string s)]>
        {["UserId" := VBinary Byte.x00 (String.list_byte_of_string u)]}
  | None => {["UserId" := VBinary Byte.x00 b]}
  end.

Definition toy_makeTimeKW (t i : Z) : string := pretty t +:+ ":" +:+ pretty i.

Definition toy_BooleanToMSP (policy : string) (convertToOnes : bool)
  : result string :=
  if decide (policy = "") then Err (errors_New "empty policy") else Ok policy.

Definition toy_GenSearchTkn (store : ToyStore) (kw : bytes) : option bytes :=
  if toy_indexed store kw then Some kw else None.

Section Toy.
#[local] Existing Instance toyCarriers.

Definition toy (store : ToyStore) : Collaborators := {|
  abe_BooleanToMSP := toy_BooleanToMSP;
  abe_Encrypt := fun msg msp _ w => (Ok (msp, msg), w);
  abe_GenerateAttribKeys := fun attrs _ w => (Ok attrs, w);
  abe_Decrypt := fun c k _ => toy_decrypt c k;
  mfast_GenUpdateTkn := fun _ _ kw _ w => (Ok kw, w);
  mfast_GenSearchTkn := fun _ kw w => (Ok (toy_GenSearchTkn store kw), w);
  mfast_DelegateKeys := fun set w => (Ok set, w);
  primitive_NewObjectID := fun w =>
    (String.list_byte_of_string (pretty (Z.of_nat w)), S w);
  ObjectID_Hex := String.string_of_list_byte;
  Time_Format_RFC1123 := fun t => pretty (Unix t);
  json_Marshal_cipher := fun c => Ok (toy_marshal_cipher c);
  json_Marshal_updateTkn := fun t => Ok t;
  json_Unmarshal_cipher := toy_unmarshal_cipher;
  json_MarshalIndent_config := fun cfg =>
    Ok (String.list_byte_of_string
          (DelegatedKeys_Set (SearcherConfig_Keys cfg) +:+ "@"
             +:+ SearcherConfig_ServerAddr cfg));
  bson_Marshal_M := fun m => Ok (toy_marshal_M m);
  bson_Marshal_searchTkn := fun t => Ok t;
  bson_Unmarshal_M := fun b => Ok (toy_unmarshal_M b);
  client_Insert := fun q w => (Ok (Some (mkInsertResponse (toy_insert store q))), w);
  client_Find := fun q w => (Ok (Some (toy_find store q)), w);
  makeTimeKW := toy_makeTimeKW;
  getBRCKWs := fun a b =>
    (fun l => toy_makeTimeKW (prefix l) (level l)) <$> rangeCover a b;
|}.

Definition toyOwner : Owner :=
  {| keys := {| ABEPK := tt; ABESK := 42 |};
     config := mkOwnerConfig "/var/db" ["grpA"; "grpB"] "127.0.0.1:8080" |}.

(** An owner with another master secret key. *)
Definition toyOwner' : Owner :=
  {| keys := {| ABEPK := tt; ABESK := 7 |}; config := config toyOwner |}.

End Toy.

(** A store that accepts every insert and has nothing to return. *)
Definition emptyStore : ToyStore :=
  {| toy_insert := fun _ => "Ok";
     toy_find := fun _ => mkFindResponse "Ok" [];
     toy_indexed := fun _ => false |}.

Definition rec1 : Record_ :=
  mkRecord "u1" "loc1" "grpA" (mkTime 1700000000 0 "UTC").

(** A record whose policy label does not compile. *)
Definition recBad : Record_ :=
  mkRecord "u2" "loc1" "" (mkTime 1700000000 0 "UTC").

(** A store that refuses every request. *)
Definition refusingStore : ToyStore :=
  {| toy_insert := fun _ => "duplicate key";
     toy_find := fun _ => mkFindResponse "index unavailable" [];
     toy_indexed := fun _ => true |}.

(** A toy document of [user], its two fields under [policy]. *)
Definition toy_doc (policy user : string) : option Document :=
  Some (mkDocument
          (String.list_byte_of_string
             (policy +:+ "/" +:+ user +:+ "|" +:+ policy +:+ "/" +:+ policy))).

(** A store that answers every query with the same documents. *)
Definition storeOf (docs : list (option Document)) : ToyStore :=
  {| toy_insert := fun _ => "Ok";
     toy_find := fun _ => mkFindResponse "Ok" docs;
     toy_indexed := fun _ => true |}.

(** A store whose documents depend on the fields asked for. *)
Definition fieldStore (docs1 docs2 : list (option Document)) : ToyStore :=
  {| toy_insert := fun _ => "Ok";
     toy_find := fun q =>
       mkFindResponse "Ok"
         (if decide (FindQuery_Fields q = ["UserId"]) then docs1 else docs2);
     toy_indexed := fun _ => true |}.

Definition t10 : Time := mkTime 10 0 "UTC".
Definition t11 : Time := mkTime 11 0 "UTC".

(* ================================================================== *)
(** * 7. The range-cover codec *)
(* ================================================================== *)

Lemma rangeCover_step a b :
  rangeCover a b =
  if Z_le_dec a b then
    {| level := largestBlock 63 a b; prefix := Z.shiftr a (largestBlock 63 a b) |}
      :: rangeCover (a + 2 ^ largestBlock 63 a b) b
  else [].
Proof. simp rangeCover. destruct (Z_le_dec a b); simpl; simp rangeCover; reflexivity. Qed.

Lemma rangeCover_inverted a b : b < a -> rangeCover a b = [].
Proof. intros Hba. rewrite rangeCover_step. destruct (Z_le_dec a b); [lia | reflexivity]. Qed.

Example rangeCover_1_6 :
  rangeCover 1 6 = [mkLabel 0 1; mkLabel 1 1; mkLabel 1 2; mkLabel 0 6].
Proof. vm_compute. reflexivity. Qed.

Example rangeCover_full :
  rangeCover 0 (2 ^ 64 - 1) = [mkLabel 63 0; mkLabel 63 1].
Proof. vm_compute. reflexivity. Qed.

Example rangeCover_aligned : rangeCover 4096 8191 = [mkLabel 12 1].
Proof. vm_compute. reflexivity. Qed.

Lemma largestBlock_range n a b : 0 <= largestBlock n a b <= Z.of_nat n.
Proof. induction n; simpl largestBlock; [lia|]. destruct (fits _ _ _); lia. Qed.

Lemma largestBlock_fits n a b :
  a <= b ->
  a mod 2 ^ largestBlock n a b = 0 /\ a + 2 ^ largestBlock n a b - 1 <= b.
Proof.
  intros Hab. induction n; simpl largestBlock.
  - change (2 ^ 0) with 1. rewrite Z.mod_1_r. lia.
  - destruct (fits a b (Z.of_nat (S n))) eqn:E; [|exact IHn].
    unfold fits in E. apply andb_prop in E as [E1 E2].
    apply Z.eqb_eq in E1. apply Z.leb_le in E2. auto.
Qed.

(** The labels of [insertionLabels v] are the ancestors of [v]. *)
Lemma elem_of_insertionLabels v l : l ∈ insertionLabels v <-> covers v l.
Proof.
  unfold insertionLabels, covers. rewrite list_elem_of_fmap. split.
  - intros (i & -> & Hi). apply elem_of_seqZ in Hi. simpl. split; [lia | reflexivity].
  - intros [Hl Hp]. exists (level l). split.
    + destruct l; simpl in *; congruence.
    + apply elem_of_seqZ. lia.
Qed.

Lemma length_insertionLabels v : length (insertionLabels v) = 64%nat.
Proof. unfold insertionLabels. rewrite length_fmap, length_seqZ. reflexivity. Qed.

(** An aligned block of [2^k] leaves is the set of values sharing its prefix. *)
Lemma block_covers a k v :
  0 <= k -> a mod 2 ^ k = 0 ->
  (Z.shiftr a k = Z.shiftr v k <-> a <= v < a + 2 ^ k).
Proof.
  intros Hk Ha. rewrite !Z.shiftr_div_pow2 by lia.
  assert (Hp : 0 < 2 ^ k) by (apply Z.pow_pos_nonneg; lia).
  pose proof (Z.div_mod a (2 ^ k) ltac:(lia)) as Hda.
  pose proof (Z.div_mod v (2 ^ k) ltac:(lia)) as Hdv.
  pose proof (Z.mod_pos_bound v (2 ^ k) Hp).
  split.
  - intros E. rewrite <- E in Hdv. lia.
  - intros Hv. apply (Z.div_unique v (2 ^ k) (a / 2 ^ k) (v - a)); lia.
Qed.

(** The blocks of the cover partition [[a,b]]: a value has one ancestor in
    the cover when it lies in the range, and none otherwise. *)
Lemma rangeCover_count a b v :
  length (filter (covers v) (rangeCover a b))
  = if decide (a <= v <= b) then 1%nat else 0%nat.
Proof.
  funelim (rangeCover a b).
  - clear Heq. rename l into Hab. rewrite filter_cons.
    pose proof (largestBlock_range 63 a b) as Hr.
    pose proof (largestBlock_fits 63 a b Hab) as [Hal Hfit].
    set (k := largestBlock 63 a b) in *.
    assert (Hp : 0 < 2 ^ k) by (apply Z.pow_pos_nonneg; lia).
    pose proof (block_covers a k v ltac:(lia) Hal) as Hb.
    destruct (decide (covers v {| level := k; prefix := Z.shiftr a k |})) as [Hc|Hc];
      unfold covers in Hc; simpl in Hc.
    + simpl length. rewrite H. destruct Hc as [_ Hc]. apply Hb in Hc.
      repeat case_decide; lia.
    + rewrite H.
      assert (~ (a <= v < a + 2 ^ k)) by (intros Hv; apply Hc; split; [lia | by apply Hb]).
      repeat case_decide; lia.
  - simpl. case_decide; lia.
Qed.

Lemma filter_insertionLabels v (ls : list IndexLabel) :
  filter (fun l => l ∈ insertionLabels v) ls = filter (covers v) ls.
Proof. apply list_filter_iff. intros l. apply elem_of_insertionLabels. Qed.

Lemma rangeCover_one a b v :
  a <= v <= b ->
  exists l, filter (fun l => l ∈ insertionLabels v) (rangeCover a b) = [l].
Proof.
  intros Hv. pose proof (rangeCover_count a b v) as Hcount.
  rewrite <- filter_insertionLabels, decide_True in Hcount by done.
  destruct (filter _ (rangeCover a b)) as [|l [|]]; try discriminate. by exists l.
Qed.

Lemma rangeCover_none a b v :
  ~ a <= v <= b ->
  filter (fun l => l ∈ insertionLabels v) (rangeCover a b) = [].
Proof.
  intros Hv. pose proof (rangeCover_count a b v) as Hcount.
  rewrite <- filter_insertionLabels, decide_False in Hcount by done.
  by destruct (filter _ (rangeCover a b)).
Qed.

(** The cover and the ancestor chain share a label exactly for the values of
    the range. *)
Lemma rangeCover_meets a b v :
  (exists l, l ∈ rangeCover a b /\ l ∈ insertionLabels v) <-> a <= v <= b.
Proof.
  split.
  - intros (l & Hl1 & Hl2). destruct (decide (a <= v <= b)) as [|Hn]; [done|].
    assert (Hin : l ∈ filter (fun l => l ∈ insertionLabels v) (rangeCover a b)).
    { by apply list_elem_of_filter. }
    rewrite (rangeCover_none _ _ _ Hn) in Hin. by apply not_elem_of_nil in Hin.
  - intros Hv. destruct (rangeCover_one _ _ _ Hv) as [l E].
    assert (Hin : l ∈ filter (fun l => l ∈ insertionLabels v) (rangeCover a b)).
    { rewrite E. apply list_elem_of_here. }
    apply list_elem_of_filter in Hin as [? ?]. by exists l.
Qed.

(** C1. Range-cover correctness: for 64-bit [a <= b] and every 64-bit [v],
    [v] lies in [[a,b]] exactly when the cover of [[a,b]] and the 64-label
    ancestor chain of [v] share a label; and for [v] in [[a,b]] they share
    exactly one label (one entry of the cover, and every common label is
    that one). *)
Theorem rangeCover_correct (a b v : Z) :
  0 <= a -> a <= b -> b < 2 ^ 64 -> 0 <= v < 2 ^ 64 ->
  (a <= v <= b <-> exists l, l ∈ rangeCover a b /\ l ∈ insertionLabels v)
  /\ (a <= v <= b ->
      exists l, filter (fun l => l ∈ insertionLabels v) (rangeCover a b) = [l]
                /\ forall l', l' ∈ rangeCover a b -> l' ∈ insertionLabels v -> l' = l).
Proof.
  intros _ _ _ _. split; [symmetry; apply rangeCover_meets|].
  intros Hv. destruct (rangeCover_one _ _ _ Hv) as [l E].
  exists l. split; [exact E|].
  intros l' H1 H2.
  assert (Hl' : l' ∈ filter (fun l => l ∈ insertionLabels v) (rangeCover a b)).
  { by apply list_elem_of_filter. }
  rewrite E in Hl'. by apply list_elem_of_singleton in Hl'.
Qed.

Lemma rangeCover_correct_witness :
  (1 <= 3 <= 6 <-> exists l, l ∈ rangeCover 1 6 /\ l ∈ insertionLabels 3)
  /\ (1 <= 3 <= 6 ->
      exists l, filter (fun l => l ∈ insertionLabels 3) (rangeCover 1 6) = [l]
                /\ forall l', l' ∈ rangeCover 1 6 -> l' ∈ insertionLabels 3 -> l' = l).
Proof. apply (rangeCover_correct 1 6 3); lia. Defined.

(** The cover lists no label twice: it is a set of labels. *)
Lemma rangeCover_NoDup a b : NoDup (rangeCover a b).
Proof.
  funelim (rangeCover a b); [|constructor].
  clear Heq. rename l into Hab. constructor; [|assumption].
  pose proof (largestBlock_range 63 a b) as Hr.
  pose proof (largestBlock_fits 63 a b Hab) as [Hal Hfit].
  set (k := largestBlock 63 a b) in *.
  assert (Hp : 0 < 2 ^ k) by (apply Z.pow_pos_nonneg; lia).
  intros Hin.
  pose proof (rangeCover_count (a + 2 ^ k) b a) as Hc.
  rewrite decide_False in Hc by lia.
  assert (Hcov : covers a {| level := k; prefix := Z.shiftr a k |}).
  { split; simpl; [lia | reflexivity]. }
  assert (Hf : {| level := k; prefix := Z.shiftr a k |}
               ∈ filter (covers a) (rangeCover (a + 2 ^ k) b)).
  { apply list_elem_of_filter. by split. }
  destruct (filter _ _); [by apply not_elem_of_nil in Hf | discriminate].
Qed.

(** The keywords of the cover and those tagged at insertion are encodings
    of labels: whenever the encoding tells labels apart, a keyword of the
    cover of [[a,b]] is among the 64 keywords of [v] exactly when [v] lies
    in the range. *)
Section Keywords.
Variable makeKW : Z -> Z -> string.
Hypothesis makeKW_inj :
  forall t1 i1 t2 i2, makeKW t1 i1 = makeKW t2 i2 -> t1 = t2 /\ i1 = i2.

Lemma keywords_meet a b v :
  (exists kw,
      kw ∈ ((fun l => makeKW (prefix l) (level l)) <$> rangeCover a b)
      /\ kw ∈ ((fun l => makeKW (prefix l) (level l)) <$> insertionLabels v))
  <-> a <= v <= b.
Proof.
  rewrite <- rangeCover_meets. split.
  - intros (kw & H1 & H2).
    apply list_elem_of_fmap in H1 as (l1 & -> & Hl1).
    apply list_elem_of_fmap in H2 as (l2 & E & Hl2).
    apply makeKW_inj in E as [Ep El].
    exists l1. split; [exact Hl1|].
    destruct l1, l2; simpl in *; by subst.
  - intros (l & H1 & H2). exists (makeKW (prefix l) (level l)).
    split; apply list_elem_of_fmap; by exists l.
Qed.
End Keywords.

(* ================================================================== *)
(** * 8. Running computations *)
(* ================================================================== *)

Section Runs.
Context {K : Carriers} {C : Collaborators}.

Lemma bind_inv {A B} (m : M A) (f : A -> M B) w o w' evs :
  (m ≫= f) w = (o, w', evs) ->
  (exists a w1 e1 e2,
      m w = (Ret a, w1, e1) /\ f a w1 = (o, w', e2) /\ evs = e1 ++ e2)
  \/ (exists e, m w = (Fail e, w', evs) /\ o = Fail e)
  \/ (m w = (Panic, w', evs) /\ o = Panic).
Proof.
  unfold mbind, M_bind. destruct (m w) as [[[a|e|] w1] e1].
  - destruct (f a w1) as [[o2 w2] e2] eqn:E. intros [= <- <- <-].
    left. by exists a, w1, e1, e2.
  - intros [= <- <- <-]. right. left. by exists e.
  - intros [= <- <- <-]. right. by right.
Qed.

Lemma ret_inv {A} (a : A) w o w' evs :
  (mret a : M A) w = (o, w', evs) -> o = Ret a /\ w' = w /\ evs = [].
Proof. by intros [= <- <- <-]. Qed.

Lemma try_inv {A} (r : result A) w o w' evs :
  try r w = (o, w', evs) -> o = ofResult r /\ w' = w /\ evs = [].
Proof. destruct r; by intros [= <- <- <-]. Qed.

Lemma try_run {A} (r : result A) w : try r w = (ofResult r, w, []).
Proof. by destruct r. Qed.

(** A call whose error is read: one event, and the outcome is what the
    collaborator returned. *)
Lemma call_inv {A} (ev : result A -> event) f w o w' evs :
  (r ← invoke ev f; try r) w = (o, w', evs) ->
  exists r, f w = (r, w') /\ o = ofResult r /\ evs = [ev r].
Proof.
  unfold mbind, M_bind, invoke. destruct (f w) as [r w1].
  rewrite try_run. intros [= <- <- <-]. by exists r.
Qed.

Lemma effect_inv {A} (f : World -> A * World) w o w' evs :
  effect f w = (o, w', evs) -> exists a, f w = (a, w') /\ o = Ret a /\ evs = [].
Proof. unfold effect. destruct (f w) as [a w1]. intros [= <- <- <-]. by exists a. Qed.

Lemma ofResult_Ret {A} (r : result A) a : ofResult r = Ret a -> r = Ok a.
Proof. destruct r; simpl; congruence. Qed.

Lemma ofResult_Fail {A} (r : result A) e : ofResult r = Fail e -> r = Err e.
Proof. destruct r; simpl; congruence. Qed.

Lemma ofResult_Panic {A} (r : result A) : ofResult r <> Panic.
Proof. by destruct r. Qed.

End Runs.

(** Splitting the run of a sequence into the runs of its steps. The head of
    the computation is matched as it is written, without unfolding. *)
Ltac run_step H :=
  lazymatch type of H with
  | (invoke _ _ ≫= (fun r => try r)) _ = _ =>
      apply call_inv in H as (? & ? & ? & ?)
  | (_ ≫= _) _ = _ =>
      let H1 := fresh "Hrun" in
      let H2 := fresh "Hrun" in
      apply bind_inv in H as
          [(? & ? & ? & ? & H1 & H2 & ?) | [(? & H1 & ?) | (H1 & ?)]]
  | try _ _ = _ => apply try_inv in H as (? & ? & ?)
  | mret _ _ = _ => apply ret_inv in H as (? & ? & ?)
  | effect _ _ = _ => apply effect_inv in H as (? & ? & ? & ?)
  end.

Ltac run_pure :=
  repeat match goal with
    | H : (_, _) = (_, _) |- _ => injection H as ? ?; subst
    end.

Ltac run_clean :=
  repeat match goal with
    | H : Ret _ = ofResult _ |- _ => symmetry in H; apply ofResult_Ret in H
    | H : Fail _ = ofResult _ |- _ => symmetry in H; apply ofResult_Fail in H
    | H : Panic = ofResult _ |- _ => symmetry in H; by apply ofResult_Panic in H
    | H : Ret _ = Ret _ |- _ => injection H as H
    | H : Fail _ = Fail _ |- _ => injection H as H
    | H : Ret _ = Fail _ |- _ => discriminate H
    | H : Ret _ = Panic |- _ => discriminate H
    | H : Fail _ = Ret _ |- _ => discriminate H
    | H : Fail _ = Panic |- _ => discriminate H
    | H : Panic = Ret _ |- _ => discriminate H
    | H : Panic = Fail _ |- _ => discriminate H
    end; subst.

(** Split every run in the context down to the calls on the collaborators
    and the runs of the loops. *)
Ltac run_all :=
  repeat (match goal with H : _ = (_, _, _) |- _ => run_step H end; run_clean).

(** Case analysis on the membership of an event in an explicit list. *)
Ltac in_cases H :=
  repeat first
    [ apply elem_of_app in H as [H|H]
    | let E := fresh "E" in
      apply elem_of_cons in H as [E|H]; [simplify_eq|]
    | by apply not_elem_of_nil in H ].

(* ================================================================== *)
(** * 9. Insertion *)
(* ================================================================== *)

Section InsertProofs.
Context {K : Carriers} {C : Collaborators}.

(** ** The update tokens of a record *)

Lemma updateTkns_events id rec kws acc w o w' evs :
  updateTkns id rec kws acc w = (o, w', evs) ->
  Forall (fun ev => isUpdate ev) evs
  /\ forall ev e, ev ∈ evs -> failure ev = Some e -> raised o = Some e.
Proof.
  revert acc w o w' evs. induction kws as [|kw kws IH]; intros acc w o w' evs Hrun.
  - simpl in Hrun. run_all. split; [constructor|]. intros ev e Hin. in_cases Hin.
  - simpl in Hrun. unfold GenUpdateTkn in Hrun.
    run_all.
    all: try match goal with Hr : updateTkns _ _ _ _ _ = _ |- _ =>
               apply IH in Hr as [IH1 IH2] end.
    all: simpl; split; [by repeat constructor|].
    all: intros ev e Hin Hf; in_cases Hin; try discriminate Hf; eauto.
Qed.

Lemma updateTkns_ok id rec kws acc w tkns w' evs :
  updateTkns id rec kws acc w = (Ret tkns, w', evs) ->
  exists ts new,
    length ts = length (kw ← kws; [kwA rec kw; kwB rec kw])
    /\ evs = zip_with
               (fun kw t => CallGenUpdateTkn (ObjectID_Hex id) (Set_ rec) kw "add" (Ok t))
               (kw ← kws; [kwA rec kw; kwB rec kw]) ts
    /\ tkns = acc ++ new
    /\ Forall2 (fun t tok => json_Marshal_updateTkn t = Ok (Token_Binary tok)) ts new.
Proof.
  revert acc w tkns w' evs. induction kws as [|kw kws IH]; intros acc w tkns w' evs Hrun.
  - simpl in Hrun. run_all. exists [], []. rewrite app_nil_r. by repeat split.
  - simpl in Hrun. unfold GenUpdateTkn in Hrun. run_all.
    match goal with Hr : updateTkns _ _ _ _ _ = _ |- _ =>
      apply IH in Hr as (ts & new & Hlen & -> & -> & Hall) end.
    match goal with
    | HA : mfast_GenUpdateTkn _ _ (kwA _ _) _ _ = (Ok ?tA, _),
      HB : mfast_GenUpdateTkn _ _ (kwB _ _) _ _ = (Ok ?tB, _),
      MA : json_Marshal_updateTkn ?tA = Ok ?bA,
      MB : json_Marshal_updateTkn ?tB = Ok ?bB |- _ =>
        exists (tA :: tB :: ts), (mkToken bA :: mkToken bB :: new)
    end.
    repeat split.
    + rewrite bind_cons, length_app. simpl. lia.
    + rewrite <- !app_assoc. reflexivity.
    + by repeat constructor.
Qed.

Lemma length_timeKWs rec : length (timeKWs rec) = 64%nat.
Proof. unfold timeKWs. by rewrite length_fmap, length_seqZ. Qed.

Lemma timeKWs_insertionLabels rec :
  timeKWs rec
  = (fun l => makeTimeKW (prefix l) (level l))
      <$> insertionLabels (uint64 (Unix (Time_ rec))).
Proof. unfold timeKWs, insertionLabels. by rewrite <- list_fmap_compose. Qed.

Lemma timeKWs_lookup rec i :
  0 <= i < 64 ->
  timeKWs rec !! Z.to_nat i
  = Some (makeTimeKW (Z.shiftr (uint64 (Unix (Time_ rec))) i) i).
Proof.
  intros Hi. unfold timeKWs. rewrite list_lookup_fmap.
  rewrite (lookup_seqZ_lt 0 64 (Z.to_nat i)) by lia. simpl.
  by rewrite Z2Nat.id by lia.
Qed.

Lemma length_tagKWs rec : length (tagKWs rec) = 128%nat.
Proof.
  unfold tagKWs. pose proof (length_timeKWs rec) as Hl.
  assert (Hg : forall kws : list string,
             length (kw ← kws; [kwA rec kw; kwB rec kw]) = (2 * length kws)%nat).
  { induction kws as [|kw kws IH]; [done|].
    rewrite bind_cons, length_app. simpl. lia. }
  rewrite Hg, Hl. reflexivity.
Qed.

Lemma retriveTkns_length owner id rec w tkns w' evs :
  retriveTkns owner id rec w = (Ret tkns, w', evs) -> length tkns = 128%nat.
Proof.
  intros Hrun. unfold retriveTkns in Hrun.
  apply updateTkns_ok in Hrun as (ts & new & Hlen & _ & -> & Hall).
  fold (tagKWs rec) in Hlen. rewrite length_tagKWs in Hlen.
  apply Forall2_length in Hall. simpl. lia.
Qed.

(** C4. Insertion labelling shape: [retriveTkns] builds exactly 64
    timestamp keywords, the one at level [i] encoding
    [uint64(Time.Unix()) >> i] together with [i] (the ancestor chain of the
    timestamp); when it returns tokens, it has asked the index for exactly
    two update tokens per level, in order the one for ["A:" + UserId + ":" +
    kw] and the one for ["B:" + Location + ":" + kw], under the record's
    set and the operation ["add"], and it returns their 128 encodings. *)
Theorem retriveTkns_shape owner id rec w tkns w' evs :
  retriveTkns owner id rec w = (Ret tkns, w', evs) ->
  length (timeKWs rec) = 64%nat
  /\ (forall i, 0 <= i < 64 ->
        timeKWs rec !! Z.to_nat i
        = Some (makeTimeKW (Z.shiftr (uint64 (Unix (Time_ rec))) i) i))
  /\ timeKWs rec
     = (fun l => makeTimeKW (prefix l) (level l))
         <$> insertionLabels (uint64 (Unix (Time_ rec)))
  /\ length tkns = 128%nat
  /\ exists ts,
       length ts = 128%nat
       /\ evs = zip_with
                  (fun kw t =>
                     CallGenUpdateTkn (ObjectID_Hex id) (Set_ rec) kw "add" (Ok t))
                  (kw ← timeKWs rec;
                   [String.list_byte_of_string ("A:" +:+ UserId rec +:+ ":" +:+ kw);
                    String.list_byte_of_string ("B:" +:+ Location rec +:+ ":" +:+ kw)])
                  ts
       /\ Forall2 (fun t tok => json_Marshal_updateTkn t = Ok (Token_Binary tok))
            ts tkns.
Proof.
  intros Hrun. pose proof (retriveTkns_length _ _ _ _ _ _ _ Hrun) as Hlen128.
  unfold retriveTkns in Hrun.
  apply updateTkns_ok in Hrun as (ts & new & Hlen & -> & -> & Hall).
  fold (tagKWs rec) in Hlen. rewrite length_tagKWs in Hlen.
  split; [apply length_timeKWs|]. split; [apply timeKWs_lookup|].
  split; [apply timeKWs_insertionLabels|]. split; [exact Hlen128|].
  exists ts. by repeat split.
Qed.

(** ** One record *)

Lemma isUpdate_other evs :
  Forall (fun ev => isUpdate ev) evs ->
  Forall (fun ev => isRpc ev = false /\ isEncrypt ev = false
                    /\ isBooleanToMSP ev = false) evs.
Proof. intros Hu. eapply Forall_impl; [exact Hu|]. by intros []. Qed.

(** The run of the loop body of [Insert] for one record: the update tokens
    first, then the policy, then the four fields under that policy. *)
Lemma encryptRecord_inv owner rec w o w' evs :
  encryptRecord owner rec w = (o, w', evs) ->
  exists id w0 ot w1 eu encs,
    primitive_NewObjectID w = (id, w0)
    /\ retriveTkns owner id rec w0 = (ot, w1, eu)
    /\ match ot with
       | Ret partTkns =>
           evs = eu ++ CallBooleanToMSP (Set_ rec) false
                         (abe_BooleanToMSP (Set_ rec) false) :: encs
           /\ match abe_BooleanToMSP (Set_ rec) false with
              | Err e => encs = [] /\ o = Fail e
              | Ok msp =>
                  Forall (fun ev => exists msg r,
                              ev = CallEncrypt msg msp (ABEPK (keys owner)) r) encs
                  /\ (forall ev e, ev ∈ encs -> failure ev = Some e -> o = Fail e)
                  /\ (forall tkns doc, o = Ret (tkns, doc) ->
                      tkns = partTkns
                      /\ exists cU cL cT cS bU bL bT bS,
                          encs = [CallEncrypt (UserId rec) msp (ABEPK (keys owner)) (Ok cU);
                                  CallEncrypt (Location rec) msp (ABEPK (keys owner)) (Ok cL);
                                  CallEncrypt (Time_Format_RFC1123 (Time_ rec)) msp
                                    (ABEPK (keys owner)) (Ok cT);
                                  CallEncrypt (Set_ rec) msp (ABEPK (keys owner)) (Ok cS)]
                          /\ json_Marshal_cipher cU = Ok bU
                          /\ json_Marshal_cipher cL = Ok bL
                          /\ json_Marshal_cipher cT = Ok bT
                          /\ json_Marshal_cipher cS = Ok bS
                          /\ bson_Marshal_M
                               (<["Set" := VBytes bS]>
                                  (<["Time" := VBytes bT]>
                                     (<["Location" := VBytes bL]>
                                        (<["UserId" := VBytes bU]>
                                           (<["_id" := VObjectID id]> ∅)))))
                             = Ok (Document_Binary doc))
              end
       | Fail e => evs = eu /\ o = Fail e
       | Panic => evs = eu /\ o = Panic
       end.
Proof.
  intros Hrun.
  unfold encryptRecord, encryptField, BooleanToMSP, Encrypt, observe in Hrun.
  run_all; run_pure.
  all: cbn [app]; rewrite ?app_nil_r.
  all: match goal with
       | Hid : primitive_NewObjectID _ = (?id, ?w0),
         Hr : retriveTkns _ ?id _ ?w0 = (?ot, ?w1, ?eu) |- _ =>
           exists id, w0, ot, w1, eu
       end.
  all: try (exists []; split; [eassumption|]; split; [eassumption|];
            cbn beta iota; split; reflexivity).
  all: eexists; split; [eassumption|]; split; [eassumption|]; cbn beta iota.
  all: repeat match goal with
         | Hm : abe_BooleanToMSP _ _ = _ |- _ => rewrite Hm; clear Hm
         end.
  all: split; [reflexivity|].
  all: try (split; reflexivity).
  all: split; [repeat constructor; eauto|].
  all: split; [intros ev e Hin Hfail; in_cases Hin; try discriminate Hfail;
               simpl in Hfail; congruence|].
  all: intros tkns doc Ho; try discriminate Ho.
  injection Ho as <- <-. split; [reflexivity|].
  do 8 eexists. split; [reflexivity|]. repeat split; eassumption.
Qed.

Lemma retriveTkns_events owner id rec w o w' evs :
  retriveTkns owner id rec w = (o, w', evs) ->
  Forall (fun ev => isUpdate ev) evs
  /\ forall ev e, ev ∈ evs -> failure ev = Some e -> raised o = Some e.
Proof. apply updateTkns_events. Qed.

(** C7. One policy per document: in the processing of a record by [Insert],
    the policy is compiled once, from the record's [Set] label, every
    encryption is under that access structure and the owner's public key,
    and the document produced holds the four fields [UserId], [Location],
    [Time] and [Set] so encrypted. *)
Theorem one_policy_per_document owner rec w o w' evs :
  encryptRecord owner rec w = (o, w', evs) ->
  (forall msg msp pk r,
      CallEncrypt msg msp pk r ∈ evs ->
      abe_BooleanToMSP (Set_ rec) false = Ok msp /\ pk = ABEPK (keys owner))
  /\ (length (filter (fun ev => isBooleanToMSP ev) evs) <= 1)%nat
  /\ (forall policy convertToOnes r,
         CallBooleanToMSP policy convertToOnes r ∈ evs ->
         policy = Set_ rec /\ convertToOnes = false)
  /\ (forall tkns doc,
         o = Ret (tkns, doc) ->
         exists msp id cU cL cT cS bU bL bT bS,
           abe_BooleanToMSP (Set_ rec) false = Ok msp
           /\ filter (fun ev => isEncrypt ev) evs
              = [CallEncrypt (UserId rec) msp (ABEPK (keys owner)) (Ok cU);
                 CallEncrypt (Location rec) msp (ABEPK (keys owner)) (Ok cL);
                 CallEncrypt (Time_Format_RFC1123 (Time_ rec)) msp
                   (ABEPK (keys owner)) (Ok cT);
                 CallEncrypt (Set_ rec) msp (ABEPK (keys owner)) (Ok cS)]
           /\ json_Marshal_cipher cU = Ok bU
           /\ json_Marshal_cipher cL = Ok bL
           /\ json_Marshal_cipher cT = Ok bT
           /\ json_Marshal_cipher cS = Ok bS
           /\ bson_Marshal_M
                (<["Set" := VBytes bS]>
                   (<["Time" := VBytes bT]>
                      (<["Location" := VBytes bL]>
                         (<["UserId" := VBytes bU]>
                            (<["_id" := VObjectID id]> ∅)))))
              = Ok (Document_Binary doc)).
Proof.
  intros Hrun.
  apply encryptRecord_inv in Hrun as (id & w0 & ot & w1 & eu & encs & _ & Htk & Hrest).
  apply retriveTkns_events in Htk as [Hu _].
  pose proof (isUpdate_other _ Hu) as Hu'.
  assert (HuE : filter (fun ev => isEncrypt ev) eu = []).
  { clear -Hu'. induction Hu' as [|ev evs (_ & He & _) _ IH]; [done|].
    rewrite filter_cons_False; [exact IH|]. rewrite He. intros []. }
  assert (HuM : filter (fun ev => isBooleanToMSP ev) eu = []).
  { clear -Hu'. induction Hu' as [|ev evs (_ & _ & He) _ IH]; [done|].
    rewrite filter_cons_False; [exact IH|]. rewrite He. intros []. }
  assert (HuN : forall ev, ev ∈ eu -> isUpdate ev).
  { by apply Forall_forall. }
  destruct ot as [partTkns|e|]; cycle 1.
  - destruct Hrest as [-> ->]. split; [|split; [|split]].
    + intros msg msp pk r Hin. destruct (HuN _ Hin).
    + rewrite HuM. simpl. lia.
    + intros policy c r Hin. destruct (HuN _ Hin).
    + discriminate.
  - destruct Hrest as [-> ->]. split; [|split; [|split]].
    + intros msg msp pk r Hin. destruct (HuN _ Hin).
    + rewrite HuM. simpl. lia.
    + intros policy c r Hin. destruct (HuN _ Hin).
    + discriminate.
  - destruct Hrest as [-> Hrest].
    destruct (abe_BooleanToMSP (Set_ rec) false) as [msp|e] eqn:Hmsp.
    + destruct Hrest as (Hencs & _ & Hok).
      assert (HeM : filter (fun ev => isBooleanToMSP ev) encs = []).
      { clear -Hencs. induction Hencs as [|ev evs (msg & r & ->) _ IH]; [done|].
        rewrite filter_cons_False; [exact IH | intros []]. }
      assert (HeE : filter (fun ev => isEncrypt ev) encs = encs).
      { clear -Hencs. induction Hencs as [|ev evs (msg & r & ->) _ IH]; [done|].
        rewrite filter_cons_True by exact I. by rewrite IH. }
      assert (HeN : forall ev, ev ∈ encs ->
                 exists msg r, ev = CallEncrypt msg msp (ABEPK (keys owner)) r).
      { by apply Forall_forall. }
      split; [|split; [|split]].
      * intros msg msp' pk r Hin. in_cases Hin.
        -- destruct (HuN _ Hin).
        -- apply HeN in Hin as (msg' & r' & ?). by simplify_eq.
      * rewrite filter_app, HuM, filter_cons_True, HeM by exact I. simpl. lia.
      * intros policy c r Hin. in_cases Hin.
        -- destruct (HuN _ Hin).
        -- done.
        -- apply HeN in Hin as (msg' & r' & ?). by simplify_eq.
      * intros tkns doc Ho. destruct (Hok _ _ Ho) as (_ & cU & cL & cT & cS & bU & bL & bT & bS & E & HU & HL & HT & HS & Hdoc).
        exists msp, id, cU, cL, cT, cS, bU, bL, bT, bS.
        split; [reflexivity|]. split; [|done].
        rewrite filter_app, HuE, filter_cons_False, HeE by (intros []). exact E.
    + destruct Hrest as [-> ->]. split; [|split; [|split]].
      * intros msg msp' pk r Hin. in_cases Hin. destruct (HuN _ Hin).
      * rewrite filter_app, HuM. simpl. lia.
      * intros policy c r Hin. in_cases Hin; [destruct (HuN _ Hin) | done].
      * discriminate.
Qed.
Lemma encryptRecord_events owner rec w o w' evs :
  encryptRecord owner rec w = (o, w', evs) ->
  Forall (fun ev => isRpc ev = false) evs
  /\ forall ev e, ev ∈ evs -> failure ev = Some e -> raised o = Some e.
Proof.
  intros Hrun.
  apply encryptRecord_inv in Hrun as (id & w0 & ot & w1 & eu & encs & _ & Htk & Hrest).
  apply retriveTkns_events in Htk as [Hu Hf].
  assert (Hu' : Forall (fun ev => isRpc ev = false) eu).
  { eapply Forall_impl; [exact (isUpdate_other _ Hu)|]. simpl. tauto. }
  destruct ot as [partTkns|e0|].
  - destruct Hrest as [-> Hrest].
    destruct (abe_BooleanToMSP (Set_ rec) false) as [msp|e0].
    + destruct Hrest as (Hencs & Hfe & _). split.
      * apply Forall_app. split; [exact Hu'|]. constructor; [done|].
        eapply Forall_impl; [exact Hencs|]. by intros ev (msg & r & ->).
      * intros ev e Hin Hfail. in_cases Hin; simpl in *; try congruence.
        -- by specialize (Hf _ _ Hin Hfail).
        -- by rewrite (Hfe _ _ Hin Hfail).
    + destruct Hrest as [-> ->]. split.
      * apply Forall_app. split; [exact Hu'|]. by repeat constructor.
      * intros ev e Hin Hfail. in_cases Hin; simpl in *; try congruence.
        by specialize (Hf _ _ Hin Hfail).
  - destruct Hrest as [-> ->]. split; [exact Hu' | exact Hf].
  - destruct Hrest as [-> ->]. split; [exact Hu' | exact Hf].
Qed.

Lemma encryptRecord_tokens owner rec w tkns doc w' evs :
  encryptRecord owner rec w = (Ret (tkns, doc), w', evs) -> length tkns = 128%nat.
Proof.
  intros Hrun.
  apply encryptRecord_inv in Hrun as (id & w0 & ot & w1 & eu & encs & _ & Htk & Hrest).
  destruct ot as [partTkns|e0|]; [|by destruct Hrest..].
  destruct Hrest as [_ Hrest].
  destruct (abe_BooleanToMSP (Set_ rec) false); [|by destruct Hrest].
  destruct Hrest as (_ & _ & Hok). destruct (Hok _ _ eq_refl) as [-> _].
  by eapply retriveTkns_length.
Qed.

(** ** The batch *)

Lemma encryptRecords_events owner i recs tkns docs w o w' evs :
  encryptRecords owner i recs tkns docs w = (o, w', evs) ->
  Forall (fun ev => isRpc ev = false) evs
  /\ forall ev e, ev ∈ evs -> failure ev = Some e -> raised o = Some e.
Proof.
  revert i tkns docs w o w' evs.
  induction recs as [|rec recs IH]; intros i tkns docs w o w' evs Hrun.
  - simpl in Hrun. run_all. split; [constructor|]. intros ev e Hin. in_cases Hin.
  - simpl in Hrun. run_step Hrun; run_clean.
    + destruct x as [partTkns doc].
      apply encryptRecord_events in Hrun0 as [Hn1 Hf1].
      apply IH in Hrun1 as [Hn2 Hf2]. split.
      * by apply Forall_app.
      * intros ev e Hin Hfail. in_cases Hin; [|by eauto].
        by specialize (Hf1 _ _ Hin Hfail).
    + by apply encryptRecord_events in Hrun0.
    + by apply encryptRecord_events in Hrun0.
Qed.

Lemma encryptRecords_ok owner i recs tkns docs w tkns' docs' w' evs :
  encryptRecords owner i recs tkns docs w = (Ret (tkns', docs'), w', evs) ->
  length tkns' = (length tkns + 128 * length recs)%nat
  /\ length docs' = length docs
  /\ forall j : nat,
       ((j < i)%nat -> docs' !! j = docs !! j)
       /\ ((i <= j < i + length recs)%nat -> (j < length docs)%nat ->
           exists d, docs' !! j = Some (Some d)).
Proof.
  revert i tkns docs w tkns' docs' w' evs.
  induction recs as [|rec recs IH]; intros i tkns docs w tkns' docs' w' evs Hrun.
  - simpl in Hrun. run_all. simplify_eq. simpl.
    split; [lia|]. split; [done|]. intros j. split; [done | lia].
  - simpl in Hrun. run_step Hrun; run_clean.
    destruct x as [partTkns doc].
    apply encryptRecord_tokens in Hrun0 as Hlen.
    apply IH in Hrun1 as (Ht & Hd & Hj).
    rewrite length_app in Ht. rewrite length_insert in Hd.
    split; [simpl; lia|]. split; [exact Hd|].
    intros j. destruct (Hj j) as [Hj1 Hj2]. split.
    + intros Hlt. rewrite Hj1 by lia. apply list_lookup_insert_ne. lia.
    + intros Hr Hjd. destruct (decide (j = i)) as [->|Hne].
      * exists doc. rewrite Hj1 by lia. by apply list_lookup_insert_eq.
      * apply Hj2; [simpl in Hr; lia | by rewrite length_insert].
Qed.

Lemma submitInsert_run q w :
  submitInsert q w
  = (insertStatus (client_Insert q w).1, (client_Insert q w).2,
     [RpcInsert q (client_Insert q w).1]).
Proof.
  unfold submitInsert, clientInsert, mbind, M_bind, invoke.
  destruct (client_Insert q w) as [[[res|]|e] w1]; simpl; try reflexivity.
  case_decide; reflexivity.
Qed.

Lemma Insert_inv owner recs w o w' evs :
  Insert owner recs w = (o, w', evs) ->
  exists ol w1 e1,
    encryptRecords owner 0 recs [] (replicate (length recs) None) w = (ol, w1, e1)
    /\ match ol with
       | Ret (tkns, docs) =>
           exists r,
             client_Insert (mkInsertQuery tkns docs) w1 = (r, w')
             /\ evs = e1 ++ [RpcInsert (mkInsertQuery tkns docs) r]
             /\ o = insertStatus r
       | Fail e => evs = e1 /\ o = Fail e
       | Panic => evs = e1 /\ o = Panic
       end.
Proof.
  intros Hrun. unfold Insert in Hrun. run_step Hrun; run_clean.
  - destruct x as [tkns docs]. rewrite submitInsert_run in Hrun1.
    injection Hrun1 as <- <- <-.
    exists (Ret (tkns, docs)), x0, x1. split; [exact Hrun0|].
    exists (client_Insert (mkInsertQuery tkns docs) x0).1.
    split; [by destruct (client_Insert _ _)|done].
  - by exists (Fail x), w', evs.
  - by exists Panic, w', evs.
Qed.

(** C3. Insert batch atomicity before network: if a call made while
    encrypting or tagging any record of the batch fails, [Insert] returns
    that error and has made no call to the remote store; and the
    [client.Insert] call, when it is made, comes last, after every record
    has been encrypted and tagged without failure, with one document per
    record and 128 tokens per record. *)
Theorem Insert_aborts_before_network owner recs w o w' evs :
  Insert owner recs w = (o, w', evs) ->
  (forall ev e,
      ev ∈ evs -> isRpc ev = false -> failure ev = Some e ->
      o = Fail e /\ Forall (fun ev => isRpc ev = false) evs)
  /\ (forall q r,
         RpcInsert q r ∈ evs ->
         exists pre,
           evs = pre ++ [RpcInsert q r]
           /\ Forall (fun ev => isRpc ev = false /\ failure ev = None) pre
           /\ length (InsertQuery_Docs q) = length recs
           /\ Forall is_Some (InsertQuery_Docs q)
           /\ length (InsertQuery_Tkns q) = (128 * length recs)%nat).
Proof.
  intros Hrun.
  apply Insert_inv in Hrun as (ol & w1 & e1 & Hloop & Hrest).
  pose proof (encryptRecords_events _ _ _ _ _ _ _ _ _ Hloop) as [Hn Hf].
  assert (HnN : forall ev, ev ∈ e1 -> isRpc ev = false) by (by apply Forall_forall).
  destruct ol as [[tkns docs]|e0|].
  - destruct Hrest as (r & Hrpc & -> & ->). split.
    + intros ev e Hin Hloc Hfail. in_cases Hin.
      by specialize (Hf _ _ Hin Hfail).
    + intros q r' Hin. in_cases Hin; [by apply HnN in Hin|].
      exists e1. split; [reflexivity|].
      apply encryptRecords_ok in Hloop as (Ht & Hd & Hj).
      rewrite length_replicate in Hd. simpl in *.
      split; [|split; [exact Hd|split; [|lia]]].
      * apply Forall_forall. intros ev Hev. split; [by apply HnN|].
        destruct (failure ev) as [e|] eqn:E; [|done].
        by specialize (Hf _ _ Hev E).
      * apply Forall_lookup. intros j d Hjd.
        assert (Hlt : (j < length docs)%nat) by (by eapply lookup_lt_Some).
        destruct (Hj j) as [_ Hj2].
        destruct Hj2 as [d' Hd']; [lia | rewrite length_replicate; lia |].
        rewrite Hjd in Hd'. injection Hd' as ->. by eexists.
  - destruct Hrest as [-> ->]. split.
    + intros ev e Hin _ Hfail. specialize (Hf _ _ Hin Hfail). simpl in Hf.
      by simplify_eq.
    + intros q r Hin. by apply HnN in Hin.
  - destruct Hrest as [-> ->]. split.
    + intros ev e Hin _ Hfail. by specialize (Hf _ _ Hin Hfail).
    + intros q r Hin. by apply HnN in Hin.
Qed.
End InsertProofs.

(* ================================================================== *)
(** * 10. Range queries *)
(* ================================================================== *)

Section FindProofs.
Context {K : Carriers} {C : Collaborators}.


Lemma searchTkns_events set kws acc w o w' evs :
  searchTkns set kws acc w = (o, w', evs) ->
  Forall (fun ev => isSearch ev) evs
  /\ forall ev e, ev ∈ evs -> failure ev = Some e -> raised o = Some e.
Proof.
  revert acc w o w' evs. induction kws as [|kw kws IH]; intros acc w o w' evs Hrun.
  - simpl in Hrun. run_all. split; [constructor|]. intros ev e Hin. in_cases Hin.
  - simpl in Hrun. unfold GenSearchTkn in Hrun. run_all.
    all: repeat match goal with
           | Hm : (match ?x with _ => _ end) _ = _ |- _ => destruct x; run_all
           end.
    all: try match goal with Hr : searchTkns _ _ _ _ = _ |- _ =>
               apply IH in Hr as [IH1 IH2] end.
    all: simpl; split; [by repeat constructor|].
    all: intros ev e Hin Hf; in_cases Hin; simpl in *; try congruence; eauto.
Qed.


Lemma submitFind_run q w :
  submitFind q w
  = (findStatus (client_Find q w).1, (client_Find q w).2,
     [RpcFind q (client_Find q w).1]).
Proof.
  unfold submitFind, clientFind, mbind, M_bind, invoke, findStatus.
  destruct (client_Find q w) as [[res|e] w1]; simpl; try reflexivity.
  case_decide; reflexivity.
Qed.

Lemma findStatus_Ret r res :
  findStatus r = Ret res -> r = Ok res /\ GetMsg res = "Ok".
Proof.
  unfold findStatus. destruct r as [res'|e]; [|done].
  case_decide; [|done]. by intros [= ->].
Qed.

Lemma findStatus_not_Panic r : findStatus r <> Panic.
Proof. unfold findStatus. destruct r; [case_decide|]; done. Qed.

(** The run of a query: the trapdoors, one round trip, the documents. *)
Lemma findWith_inv {R} fields (body : option Document -> M R) set loc tA tB
    w o w' evs :
  findWith fields body set loc tA tB w = (o, w', evs) ->
  exists os w1 e1,
    searchTkns set (rangeKWs loc tA tB) [] w = (os, w1, e1)
    /\ match os with
       | Ret tkns =>
           exists r w2,
             client_Find (mkFindQuery fields tkns) w1 = (r, w2)
             /\ match findStatus r with
                | Ret findRes =>
                    exists e3,
                      forDocs body 0 (GetDocs findRes)
                        (replicate (length (GetDocs findRes)) None) w2
                      = (o, w', e3)
                      /\ evs = e1 ++ RpcFind (mkFindQuery fields tkns) r :: e3
                | Fail e =>
                    evs = e1 ++ [RpcFind (mkFindQuery fields tkns) r]
                    /\ o = Fail e /\ w' = w2
                | Panic => False
                end
       | Fail e => evs = e1 /\ o = Fail e /\ w' = w1
       | Panic => evs = e1 /\ o = Panic /\ w' = w1
       end.
Proof.
  intros Hrun. unfold findWith in Hrun. run_step Hrun; run_clean.
  - exists (Ret x), x0, x1. split; [exact Hrun0|].
    unfold mbind, M_bind in Hrun1. rewrite submitFind_run in Hrun1.
    destruct (client_Find (mkFindQuery fields x) x0) as [r w2] eqn:Hc.
    simpl in Hrun1. exists r, w2. split; [reflexivity|].
    destruct (findStatus r) as [findRes|e|] eqn:Hs.
    + destruct (forDocs body 0 _ _ w2) as [[o3 w3] e3] eqn:Hd.
      injection Hrun1 as <- <- <-. by exists e3.
    + by injection Hrun1 as <- <- <-.
    + by apply findStatus_not_Panic in Hs.
  - by exists (Fail x), w', evs.
  - by exists Panic, w', evs.
Qed.

(** ** The loop over the returned documents *)

Lemma decryptDocB_run owner set bDoc w :
  decryptDocB owner set bDoc w
  = match bson_Unmarshal_M (GetBinary bDoc) with
    | Err e => (Fail e, w, [])
    | Ok doc =>
        match doc !! "UserId" with
        | Some (VBinary _ data) =>
            let c := (json_Unmarshal_cipher data).1 in
            let (r, w') := abe_GenerateAttribKeys [set] (ABESK (keys owner)) w in
            match r with
            | Err e =>
                (Fail e, w',
                 [CallGenerateAttribKeys [set] (ABESK (keys owner)) (Err e)])
            | Ok k =>
                (Ret (mkFindBResult (abe_Decrypt c k (ABEPK (keys owner))).1), w',
                 [CallGenerateAttribKeys [set] (ABESK (keys owner)) (Ok k);
                  CallDecrypt c k (ABEPK (keys owner))
                    (abe_Decrypt c k (ABEPK (keys owner)))])
            end
        | _ => (Panic, w, [])
        end
    end.
Proof.
  unfold decryptDocB, fieldCipher, GenerateAttribKeys, Decrypt, observe, invoke,
    mbind, M_bind.
  destruct (bson_Unmarshal_M (GetBinary bDoc)) as [doc|e]; [|reflexivity]. simpl.
  destruct (doc !! "UserId") as [[| |st data|]|]; try reflexivity. simpl.
  destruct (abe_GenerateAttribKeys [set] (ABESK (keys owner)) w) as [[k|e] w1];
    reflexivity.
Qed.

Lemma decryptDocB2_run owner set bDoc w :
  decryptDocB2 owner set bDoc w
  = match bson_Unmarshal_M (GetBinary bDoc) with
    | Err e => (Fail e, w, [])
    | Ok doc =>
        match doc !! "UserId", doc !! "Set" with
        | Some (VBinary _ dataU), Some (VBinary _ dataS) =>
            let cU := (json_Unmarshal_cipher dataU).1 in
            let cS := (json_Unmarshal_cipher dataS).1 in
            let (r, w') := abe_GenerateAttribKeys [set] (ABESK (keys owner)) w in
            match r with
            | Err e =>
                (Fail e, w',
                 [CallGenerateAttribKeys [set] (ABESK (keys owner)) (Err e)])
            | Ok k =>
                (Ret (mkFindB2Result (abe_Decrypt cU k (ABEPK (keys owner))).1
                        (abe_Decrypt cS k (ABEPK (keys owner))).1), w',
                 [CallGenerateAttribKeys [set] (ABESK (keys owner)) (Ok k);
                  CallDecrypt cU k (ABEPK (keys owner))
                    (abe_Decrypt cU k (ABEPK (keys owner)));
                  CallDecrypt cS k (ABEPK (keys owner))
                    (abe_Decrypt cS k (ABEPK (keys owner)))])
            end
        | _, _ => (Panic, w, [])
        end
    end.
Proof.
  unfold decryptDocB2, fieldCipher, GenerateAttribKeys, Decrypt, observe, invoke,
    mbind, M_bind.
  destruct (bson_Unmarshal_M (GetBinary bDoc)) as [doc|e]; [|reflexivity]. simpl.
  destruct (doc !! "UserId") as [[| |stU dataU|]|]; try reflexivity. simpl.
  destruct (doc !! "Set") as [[| |stS dataS|]|]; try reflexivity. simpl.
  destruct (abe_GenerateAttribKeys [set] (ABESK (keys owner)) w) as [[k|e] w1];
    reflexivity.
Qed.

(** The events of a loop are those of its body. *)
Lemma forDocs_events {R} (P : event -> Prop) (body : option Document -> M R)
    i docs results w :
  (forall d w, Forall P (body d w).2) ->
  Forall P (forDocs body i docs results w).2.
Proof.
  intros Hbody. revert i results w.
  induction docs as [|d docs IH]; intros i results w; [constructor|].
  simpl. unfold mbind, M_bind. specialize (Hbody d w).
  destruct (body d w) as [[[r|e|] w1] e1]; try exact Hbody.
  specialize (IH (S i) (<[i:=Some r]> results) w1).
  destruct (forDocs body (S i) docs _ w1) as [[o2 w2] e2].
  simpl in *. by apply Forall_app.
Qed.

Lemma forDocs_ok {R} (body : option Document -> M R) i docs results w
    results' w' evs :
  forDocs body i docs results w = (Ret results', w', evs) ->
  exists rs,
    forEach body docs w rs w' evs
    /\ results' = list_inserts i (Some <$> rs) results.
Proof.
  revert i results w results' w' evs.
  induction docs as [|d docs IH]; intros i results w results' w' evs Hrun.
  - simpl in Hrun. run_all. exists []. split; [constructor | done].
  - simpl in Hrun. run_step Hrun; run_clean.
    apply IH in Hrun1 as (rs & Hrs & ->).
    exists (x :: rs). split; [by econstructor|].
    simpl. rewrite list_insert_inserts_lt by lia. reflexivity.
Qed.

Lemma forEach_length {R} (body : option Document -> M R) docs w rs w' evs :
  forEach body docs w rs w' evs -> length rs = length docs.
Proof. induction 1; simpl; congruence. Qed.

(** From the slice [make([]*R, len(bDocs))], the loop returns one result
    per document. *)
Lemma forDocs_full {R} (body : option Document -> M R) docs w results w' evs :
  forDocs body 0 docs (replicate (length docs) None) w = (Ret results, w', evs) ->
  exists rs, forEach body docs w rs w' evs /\ results = Some <$> rs.
Proof.
  intros Hrun. apply forDocs_ok in Hrun as (rs & Hrs & ->).
  exists rs. split; [exact Hrs|].
  rewrite <- (app_nil_r (Some <$> rs)) at 1.
  apply list_inserts_0_l.
  rewrite length_fmap, length_replicate. by eapply forEach_length.
Qed.

Lemma forDocs_fmap {R1 R2} (g : R1 -> R2) (body2 : option Document -> M R2)
    (body1 : option Document -> M R1) i docs (results : list (option R1)) w :
  (forall d w, body2 d w = (g <$> body1 d) w) ->
  forDocs body2 i docs (fmap (M := list) (fmap (M := option) g) results) w
  = (fmap (M := list) (fmap (M := option) g) <$> forDocs body1 i docs results) w.
Proof.
  intros Hbody. revert i results w.
  induction docs as [|d docs IH]; intros i results w; [reflexivity|].
  cbn [forDocs]. unfold mbind, M_bind. rewrite Hbody.
  unfold fmap at 1 4, M_fmap.
  destruct (body1 d w) as [[[r|e|] w1] e1]; try reflexivity.
  replace (<[i:=Some (g r)]> (fmap (M := list) (fmap (M := option) g) results))
    with (fmap (M := list) (fmap (M := option) g) (<[i:=Some r]> results))
    by (by rewrite list_fmap_insert).
  rewrite IH. unfold fmap at 1 4, M_fmap.
  by destruct (forDocs body1 (S i) docs _ w1) as [[[?|?|] ?] ?].
Qed.



Lemma decryptDocB_events owner set d w :
  Forall (fun ev => isKeyOrDecrypt ev) (decryptDocB owner set d w).2.
Proof.
  rewrite decryptDocB_run.
  destruct (bson_Unmarshal_M (GetBinary d)) as [doc|e]; [|constructor].
  destruct (doc !! "UserId") as [[| |st data|]|]; try constructor.
  cbn zeta. destruct (abe_GenerateAttribKeys _ _ w) as [[k|e] w1'];
    by repeat constructor.
Qed.

Lemma decryptDocB2_events owner set d w :
  Forall (fun ev => isKeyOrDecrypt ev) (decryptDocB2 owner set d w).2.
Proof.
  rewrite decryptDocB2_run.
  destruct (bson_Unmarshal_M (GetBinary d)) as [doc|e]; [|constructor].
  destruct (doc !! "UserId") as [[| |stU dataU|]|]; try constructor.
  destruct (doc !! "Set") as [[| |stS dataS|]|]; try constructor.
  cbn zeta. destruct (abe_GenerateAttribKeys _ _ w) as [[k|e] w1'];
    by repeat constructor.
Qed.

Lemma isSearch_other evs :
  Forall (fun ev => isSearch ev) evs ->
  Forall (fun ev => isRpc ev = false /\ decrypted ev = None
                    /\ forall attrs sk e, ev <> CallGenerateAttribKeys attrs sk (Err e))
    evs.
Proof. intros Hs. eapply Forall_impl; [exact Hs|]. by intros []. Qed.

Lemma isKeyOrDecrypt_other evs :
  Forall (fun ev => isKeyOrDecrypt ev) evs ->
  Forall (fun ev => isRpc ev = false /\ searchedKW ev = None /\ presentTkn ev = None)
    evs.
Proof. intros Hs. eapply Forall_impl; [exact Hs|]. by intros []. Qed.


(** The place of the round trip in the run of a query. *)
Lemma findWith_rpc {R} fields (body : option Document -> M R) set loc tA tB
    w o w' evs :
  (forall d w, Forall (fun ev => isKeyOrDecrypt ev) (body d w).2) ->
  findWith fields body set loc tA tB w = (o, w', evs) ->
  (forall q r, RpcInsert q r ∉ evs)
  /\ (forall q r,
         RpcFind q r ∈ evs ->
         exists tkns w1 e1 w2 e3,
           searchTkns set (rangeKWs loc tA tB) [] w = (Ret tkns, w1, e1)
           /\ q = mkFindQuery fields tkns
           /\ client_Find q w1 = (r, w2)
           /\ evs = e1 ++ RpcFind q r :: e3
           /\ Forall (fun ev => isKeyOrDecrypt ev) e3
           /\ match findStatus r with
              | Ret findRes =>
                  forDocs body 0 (GetDocs findRes)
                    (replicate (length (GetDocs findRes)) None) w2
                  = (o, w', e3)
              | Fail e => e3 = [] /\ o = Fail e
              | Panic => False
              end)
  /\ (forall results, o = Ret results -> exists q r, RpcFind q r ∈ evs).
Proof.
  intros Hbody Hrun.
  apply findWith_inv in Hrun as (os & w1 & e1 & Hs & Hrest).
  pose proof (searchTkns_events _ _ _ _ _ _ _ Hs) as [Hse _].
  pose proof (isSearch_other _ Hse) as Hse'.
  assert (Hn1 : forall ev, ev ∈ e1 -> isRpc ev = false).
  { intros ev Hev. by eapply Forall_forall in Hse' as [? _]. }
  destruct os as [tkns|e|]; cycle 1.
  - destruct Hrest as (-> & -> & ->). split; [|split].
    + intros q r Hin. by apply Hn1 in Hin.
    + intros q r Hin. by apply Hn1 in Hin.
    + discriminate.
  - destruct Hrest as (-> & -> & ->). split; [|split].
    + intros q r Hin. by apply Hn1 in Hin.
    + intros q r Hin. by apply Hn1 in Hin.
    + discriminate.
  - destruct Hrest as (r & w2 & Hc & Hrest).
    assert (exists e3, evs = e1 ++ RpcFind (mkFindQuery fields tkns) r :: e3
                       /\ Forall (fun ev => isKeyOrDecrypt ev) e3
                       /\ match findStatus r with
                          | Ret findRes =>
                              forDocs body 0 (GetDocs findRes)
                                (replicate (length (GetDocs findRes)) None) w2
                              = (o, w', e3)
                          | Fail e => e3 = [] /\ o = Fail e
                          | Panic => False
                          end) as (e3 & -> & He3 & Hst).
    { destruct (findStatus r) as [findRes|e|]; [|by exists []; destruct Hrest as (-> & -> & _)|done].
      destruct Hrest as (e3 & Hd & ->). exists e3. split; [done|]. split; [|done].
      pose proof (forDocs_events (fun ev => isKeyOrDecrypt ev) body 0
                    (GetDocs findRes) (replicate (length (GetDocs findRes)) None)
                    w2 Hbody) as Hev.
      by rewrite Hd in Hev. }
    pose proof (isKeyOrDecrypt_other _ He3) as He3'.
    assert (Hn3 : forall ev, ev ∈ e3 -> isRpc ev = false).
    { intros ev Hev. by eapply Forall_forall in He3' as [? _]. }
    split; [|split].
    + intros q r' Hin. in_cases Hin; [by apply Hn1 in Hin | by apply Hn3 in Hin].
    + intros q r' Hin. in_cases Hin; [by apply Hn1 in Hin | | by apply Hn3 in Hin].
      by exists tkns, w1, e1, w2, e3.
    + intros results _. exists (mkFindQuery fields tkns), r.
      apply elem_of_app. right. apply list_elem_of_here.
Qed.

Lemma FindB_findWith owner set loc tA tB :
  FindB owner set loc tA tB
  = findWith ["UserId"] (decryptDocB owner set) set loc tA tB.
Proof. reflexivity. Qed.

Lemma FindB2_findWith owner set loc tA tB :
  FindB2 owner set loc tA tB
  = findWith ["UserId"; "Set"] (decryptDocB2 owner set) set loc tA tB.
Proof. reflexivity. Qed.

(** A query that got a status other than ["Ok"] fails with that status, and
    one that returns results got the status ["Ok"]. *)
Lemma findWith_status {R} fields (body : option Document -> M R) set loc tA tB
    w o w' evs :
  (forall d w, Forall (fun ev => isKeyOrDecrypt ev) (body d w).2) ->
  findWith fields body set loc tA tB w = (o, w', evs) ->
  (forall q res,
      RpcFind q (Ok res) ∈ evs -> GetMsg res <> "Ok" ->
      exists e, o = Fail e /\ Error e = GetMsg res)
  /\ (forall results,
         o = Ret results ->
         exists q res, RpcFind q (Ok res) ∈ evs /\ GetMsg res = "Ok").
Proof.
  intros Hbody Hrun.
  destruct (findWith_rpc _ _ _ _ _ _ _ _ _ _ Hbody Hrun) as (_ & Hrpc & Hret).
  split.
  - intros q res Hin Hmsg.
    destruct (Hrpc _ _ Hin) as (tkns & w1 & e1 & w2 & e3 & _ & _ & _ & _ & _ & Hst).
    simpl in Hst. rewrite decide_False in Hst by done. destruct Hst as [_ ->].
    by eexists.
  - intros results ->. destruct (Hret _ eq_refl) as (q & r & Hin).
    destruct (Hrpc _ _ Hin) as (tkns & w1 & e1 & w2 & e3 & _ & _ & _ & _ & _ & Hst).
    destruct (findStatus r) as [findRes|e|] eqn:Hs; [|by destruct Hst|done].
    apply findStatus_Ret in Hs as [-> Hok]. by exists q, findRes.
Qed.

(** C8. Non-success store status surfaces as an error carrying that message:
    when the store answers an [Insert] or a [Find] round trip with a status
    other than ["Ok"], the operation returns an error whose message is that
    status; and the operation returns without error only when the status
    was ["Ok"]. *)
Theorem store_status_surfaces owner recs set loc tA tB w
    oI wI eI oB wB eB oB2 wB2 eB2 :
  Insert owner recs w = (oI, wI, eI) ->
  FindB owner set loc tA tB w = (oB, wB, eB) ->
  FindB2 owner set loc tA tB w = (oB2, wB2, eB2) ->
  (forall q res,
      RpcInsert q (Ok (Some res)) ∈ eI ->
      (InsertResponse_Msg res <> "Ok" ->
       exists e, oI = Fail e /\ Error e = InsertResponse_Msg res)
      /\ (InsertResponse_Msg res = "Ok" -> oI = Ret tt))
  /\ (oI = Ret tt ->
      exists q res, RpcInsert q (Ok (Some res)) ∈ eI /\ InsertResponse_Msg res = "Ok")
  /\ (forall q res,
         RpcFind q (Ok res) ∈ eB -> GetMsg res <> "Ok" ->
         exists e, oB = Fail e /\ Error e = GetMsg res)
  /\ (forall results,
         oB = Ret results ->
         exists q res, RpcFind q (Ok res) ∈ eB /\ GetMsg res = "Ok")
  /\ (forall q res,
         RpcFind q (Ok res) ∈ eB2 -> GetMsg res <> "Ok" ->
         exists e, oB2 = Fail e /\ Error e = GetMsg res)
  /\ (forall results,
         oB2 = Ret results ->
         exists q res, RpcFind q (Ok res) ∈ eB2 /\ GetMsg res = "Ok").
Proof.
  intros HI HB HB2.
  rewrite FindB_findWith in HB. rewrite FindB2_findWith in HB2.
  destruct (findWith_status _ _ _ _ _ _ _ _ _ _ (decryptDocB_events owner set) HB)
    as [HB_1 HB_2].
  destruct (findWith_status _ _ _ _ _ _ _ _ _ _ (decryptDocB2_events owner set) HB2)
    as [HB2_1 HB2_2].
  split; [|split; [|by repeat split]].
  - intros q res Hin.
    apply Insert_inv in HI as (ol & w1 & e1 & Hloop & Hrest).
    apply encryptRecords_events in Hloop as [Hn _].
    assert (HnN : forall ev, ev ∈ e1 -> isRpc ev = false) by (by apply Forall_forall).
    destruct ol as [[tkns docs]|e0|].
    + destruct Hrest as (r & _ & -> & ->). in_cases Hin; [by apply HnN in Hin|].
      simpl. split.
      * intros Hmsg. rewrite decide_False by done. by eexists.
      * intros Hmsg. by rewrite decide_True.
    + destruct Hrest as [-> _]. by apply HnN in Hin.
    + destruct Hrest as [-> _]. by apply HnN in Hin.
  - intros ->.
    apply Insert_inv in HI as (ol & w1 & e1 & Hloop & Hrest).
    destruct ol as [[tkns docs]|e0|]; [|by destruct Hrest..].
    destruct Hrest as (r & _ & -> & Hst).
    destruct r as [[res|]|e]; simpl in Hst; try discriminate.
    case_decide; [|discriminate].
    exists (mkInsertQuery tkns docs), res. split; [|done].
    apply elem_of_app. right. apply list_elem_of_here.
Qed.







Lemma decryptDocB_fields owner set d w :
  decryptDocB owner set d w
  = (asFindBResult <$> decryptDocFields owner set ["UserId"] d) w.
Proof.
  unfold decryptDocB, decryptDocFields, fieldCiphers, decryptAll, fieldCipher,
    GenerateAttribKeys, Decrypt, observe, invoke, fmap, M_fmap, mbind, M_bind.
  destruct (bson_Unmarshal_M (GetBinary d)) as [doc|e]; [|reflexivity]. simpl.
  destruct (doc !! "UserId") as [[| |st data|]|]; try reflexivity. simpl.
  destruct (abe_GenerateAttribKeys [set] (ABESK (keys owner)) w) as [[k|e] w1];
    reflexivity.
Qed.

Lemma decryptDocB2_fields owner set d w :
  decryptDocB2 owner set d w
  = (asFindB2Result <$> decryptDocFields owner set ["UserId"; "Set"] d) w.
Proof.
  unfold decryptDocB2, decryptDocFields, fieldCiphers, decryptAll, fieldCipher,
    GenerateAttribKeys, Decrypt, observe, invoke, fmap, M_fmap, mbind, M_bind.
  destruct (bson_Unmarshal_M (GetBinary d)) as [doc|e]; [|reflexivity]. simpl.
  destruct (doc !! "UserId") as [[| |stU dataU|]|]; try reflexivity. simpl.
  destruct (doc !! "Set") as [[| |stS dataS|]|]; try reflexivity. simpl.
  destruct (abe_GenerateAttribKeys [set] (ABESK (keys owner)) w) as [[k|e] w1];
    reflexivity.
Qed.

Lemma findWith_fmap {R1 R2} (g : R1 -> R2) fields
    (body2 : option Document -> M R2) (body1 : option Document -> M R1)
    set loc tA tB w :
  (forall d w, body2 d w = (g <$> body1 d) w) ->
  findWith fields body2 set loc tA tB w
  = (fmap (M := list) (fmap (M := option) g)
       <$> findWith fields body1 set loc tA tB) w.
Proof.
  intros Hbody. unfold findWith, mbind, M_bind, fmap at 1, M_fmap.
  destruct (searchTkns set (rangeKWs loc tA tB) [] w) as [[[tkns|e|] w1] e1];
    try reflexivity.
  destruct (submitFind (mkFindQuery fields tkns) w1) as [[[findRes|e|] w2] e2];
    try reflexivity.
  cbn zeta.
  replace (replicate (length (GetDocs findRes)) (@None R2))
    with (fmap (M := list) (fmap (M := option) g)
            (replicate (length (GetDocs findRes)) (@None R1)))
    by (by rewrite fmap_replicate).
  rewrite (forDocs_fmap g body2 body1) by exact Hbody.
  unfold fmap at 1 4, M_fmap.
  by destruct (forDocs body1 0 _ _ w2) as [[[?|?|] ?] ?].
Qed.

Lemma forEach_forDocs {R} (body : option Document -> M R) docs w rs w' evs :
  forEach body docs w rs w' evs ->
  forall i results,
    forDocs body i docs results w
    = (Ret (list_inserts i (Some <$> rs) results), w', evs).
Proof.
  induction 1 as [|d ds w r w1 e1 rs w2 e2 Hbody _ IH]; intros i results;
    [reflexivity|].
  cbn [forDocs]. unfold mbind, M_bind. rewrite Hbody, IH. simpl.
  by rewrite list_insert_inserts_lt by lia.
Qed.

Lemma forEach_forDocs_full {R} (body : option Document -> M R) docs w rs w' evs :
  forEach body docs w rs w' evs ->
  forDocs body 0 docs (replicate (length docs) None) w = (Ret (Some <$> rs), w', evs).
Proof.
  intros Hrs. rewrite (forEach_forDocs _ _ _ _ _ _ Hrs). do 3 f_equal.
  rewrite <- (app_nil_r (Some <$> rs)) at 1. apply list_inserts_0_l.
  rewrite length_fmap, length_replicate. by eapply forEach_length.
Qed.

(** On documents carrying the same [UserId] ciphertext and from the same
    world, the loop of [FindB] returns what the loop of [FindB2] returns as
    [UserId]. *)
Lemma forEach_sameUserId owner set docs1 docs2 w rs2 w' e2 :
  Forall2 sameUserId docs1 docs2 ->
  forEach (decryptDocB2 owner set) docs2 w rs2 w' e2 ->
  exists e1,
    forEach (decryptDocB owner set) docs1 w
      ((fun r => mkFindBResult (FindB2Result_UserId r)) <$> rs2) w' e1.
Proof.
  intros Hdocs. revert w rs2 w' e2.
  induction Hdocs as [|d1 d2 docs1 docs2 Hd _ IH]; intros w rs2 w' e2 Hrun.
  - inversion Hrun; subst. exists []. constructor.
  - inversion Hrun as [|? ? ? r w1 ev1 rs w2 ev2 Hbody Hrest]; subst.
    rewrite decryptDocB2_run in Hbody. unfold sameUserId in Hd.
    destruct (bson_Unmarshal_M (GetBinary d2)) as [doc2|e]; [|discriminate].
    destruct Hd as (doc1 & Hu1 & Hsame).
    destruct (doc2 !! "UserId") as [[| |stU dataU|]|] eqn:HU; try discriminate.
    destruct (doc2 !! "Set") as [[| |stS dataS|]|]; try discriminate.
    cbn zeta in Hbody.
    destruct (abe_GenerateAttribKeys _ _ w) as [[k|e] w1'] eqn:Hk; [|discriminate].
    injection Hbody as <- <- <-.
    apply IH in Hrest as (e1 & Hrest).
    eexists. rewrite fmap_cons. econstructor; [|exact Hrest].
    rewrite decryptDocB_run, Hu1, Hsame, Hk. reflexivity.
Qed.

(** C6 (as the code has it). [FindB] and [FindB2] are the one algorithm
    taking the requested fields, at [["UserId"]] and [["UserId"; "Set"]]:
    same keywords, trapdoors, submission and per-document decryption, with
    the same calls in the same order. And whenever the store gives the query
    for [UserId] the answer it gives the query for [UserId] and [Set], what
    [FindB2] returns as [UserId] is what [FindB] returns. *)
Theorem FindB_FindB2_one_algorithm owner set loc tA tB w :
  FindB owner set loc tA tB w
  = (fmap (M := list) (fmap (M := option) asFindBResult)
       <$> FindRange owner ["UserId"] set loc tA tB) w
  /\ FindB2 owner set loc tA tB w
     = (fmap (M := list) (fmap (M := option) asFindB2Result)
          <$> FindRange owner ["UserId"; "Set"] set loc tA tB) w
  /\ ((forall tkns w1 e1,
          searchTkns set (rangeKWs loc tA tB) [] w = (Ret tkns, w1, e1) ->
          answersAlike tkns w1) ->
      forall results2 w2 e2,
        FindB2 owner set loc tA tB w = (Ret results2, w2, e2) ->
        exists results1 e1,
          FindB owner set loc tA tB w = (Ret results1, w2, e1)
          /\ fmap (M := list) (fmap (M := option) FindBResult_UserId) results1
             = fmap (M := list) (fmap (M := option) FindB2Result_UserId) results2).
Proof.
  split; [|split].
  - rewrite FindB_findWith. apply findWith_fmap. apply decryptDocB_fields.
  - rewrite FindB2_findWith. apply findWith_fmap. apply decryptDocB2_fields.
  - intros Halike results2 w2 e2 HB2. rewrite FindB2_findWith in HB2.
    apply findWith_inv in HB2 as (os & w1 & e1 & Hs & Hrest).
    destruct os as [tkns|e|]; [|by destruct Hrest as (_ & ? & _)..].
    destruct Hrest as (r2 & w2' & Hc2 & Hrest).
    specialize (Halike _ _ _ Hs). unfold answersAlike in Halike.
    rewrite Hc2 in Halike.
    destruct (findStatus r2) as [findRes2|e|] eqn:Hst2;
      [|by destruct Hrest as (_ & ? & _)|done].
    apply findStatus_Ret in Hst2 as [-> Hok2].
    destruct (Halike Hok2) as (findRes1 & Hc1 & Hok1 & Hdocs).
    destruct Hrest as (e3 & Hloop & ->).
    apply forDocs_full in Hloop as (rs2 & Hrs2 & ->).
    destruct (forEach_sameUserId _ _ _ _ _ _ _ _ Hdocs Hrs2) as (e3' & Hrs1).
    apply forEach_forDocs_full in Hrs1.
    eexists. eexists. split.
    + rewrite FindB_findWith. unfold findWith, mbind, M_bind.
      rewrite Hs, submitFind_run, Hc1. simpl. rewrite decide_True by done.
      cbn zeta. rewrite Hrs1. reflexivity.
    + rewrite <- !list_fmap_compose. apply list_fmap_ext. by intros i r _.
Qed.
End FindProofs.

(* ================================================================== *)
(** * 11. Delegation, and timestamps before the epoch *)
(* ================================================================== *)

Section DelegationProofs.
Context {K : Carriers} {C : Collaborators}.

Lemma DelegateKeys_run owner set w :
  DelegateKeys owner set w
  = let (rk, w1) := abe_GenerateAttribKeys [set] (ABESK (keys owner)) w in
    match rk with
    | Err e => (Fail e, w1, [CallGenerateAttribKeys [set] (ABESK (keys owner)) (Err e)])
    | Ok abeAttrK =>
        let (rm, w2) := mfast_DelegateKeys set w1 in
        match rm with
        | Err e =>
            (Fail e, w2,
             [CallGenerateAttribKeys [set] (ABESK (keys owner)) (Ok abeAttrK);
              CallDelegateKeys set (Err e)])
        | Ok mfastKeys =>
            (Ret {| DelegatedKeys_Set := set;
                    DelegatedKeys_MFastKeys := mfastKeys;
                    DelegatedKeys_ABEAttrK := abeAttrK;
                    DelegatedKeys_ABEPK := ABEPK (keys owner) |}, w2,
             [CallGenerateAttribKeys [set] (ABESK (keys owner)) (Ok abeAttrK);
              CallDelegateKeys set (Ok mfastKeys)])
        end
    end.
Proof.
  unfold DelegateKeys, GenerateAttribKeys, mfastDelegateKeys, invoke, mbind, M_bind.
  destruct (abe_GenerateAttribKeys [set] (ABESK (keys owner)) w) as [[k|e] w1];
    [|reflexivity].
  simpl. destruct (mfast_DelegateKeys set w1) as [[m|e] w2]; reflexivity.
Qed.

(** C5. Delegation never leaks the master secret key: the [DelegatedKeys]
    returned by [DelegateKeys] hold the partition name, the index-delegation
    secret the index returned, the attribute key generated for that
    partition and the public key, and the configuration of
    [GenSearcherConfig] is the encoding of these with the partition list
    and the server address; the master secret key reaches neither of them
    but through the attribute key: two owners differing only in it, for
    which key generation answers alike, return the same. *)
Theorem delegation_hides_master_key owner1 owner2 set w :
  ABEPK (keys owner1) = ABEPK (keys owner2) ->
  config owner1 = config owner2 ->
  abe_GenerateAttribKeys [set] (ABESK (keys owner1)) w
  = abe_GenerateAttribKeys [set] (ABESK (keys owner2)) w ->
  (DelegateKeys owner1 set w).1 = (DelegateKeys owner2 set w).1
  /\ (GenSearcherConfig owner1 set w).1 = (GenSearcherConfig owner2 set w).1
  /\ (forall dk w' evs,
         DelegateKeys owner1 set w = (Ret dk, w', evs) ->
         DelegatedKeys_Set dk = set
         /\ DelegatedKeys_ABEPK dk = ABEPK (keys owner1)
         /\ evs = [CallGenerateAttribKeys [set] (ABESK (keys owner1))
                     (Ok (DelegatedKeys_ABEAttrK dk));
                   CallDelegateKeys set (Ok (DelegatedKeys_MFastKeys dk))])
  /\ (forall cfg w' evs,
         GenSearcherConfig owner1 set w = (Ret cfg, w', evs) ->
         exists dk jsonCfg,
           DelegateKeys owner1 set w = (Ret dk, w', evs)
           /\ json_MarshalIndent_config
                {| SearcherConfig_SetList := SetList (config owner1);
                   SearcherConfig_Keys := dk;
                   SearcherConfig_ServerAddr := ServerAddr (config owner1) |}
              = Ok jsonCfg
           /\ cfg = String.string_of_list_byte jsonCfg).
Proof.
  intros Hpk Hcfg Hkeys.
  assert (HD : (DelegateKeys owner1 set w).1 = (DelegateKeys owner2 set w).1).
  { rewrite !DelegateKeys_run, Hkeys, Hpk. clear Hkeys.
    destruct (abe_GenerateAttribKeys [set] (ABESK (keys owner2)) w) as [[k|e] w1];
      [|reflexivity].
    destruct (mfast_DelegateKeys set w1) as [[m|e] w2]; reflexivity. }
  split; [exact HD|]. split; [|split].
  - unfold GenSearcherConfig, mbind, M_bind. rewrite Hcfg.
    destruct (DelegateKeys owner1 set w) as [[o1 w1] e1].
    destruct (DelegateKeys owner2 set w) as [[o2 w2] e2].
    simpl in HD. injection HD as -> ->.
    destruct o2 as [dk|e|]; try reflexivity.
    rewrite !try_run. by destruct (json_MarshalIndent_config _).
  - intros dk w' evs Hrun. rewrite DelegateKeys_run in Hrun.
    destruct (abe_GenerateAttribKeys _ _ w) as [[k|e] w1]; [|discriminate].
    destruct (mfast_DelegateKeys set w1) as [[m|e] w2]; [|discriminate].
    by injection Hrun as <- <- <-.
  - intros cfg w' evs Hrun. unfold GenSearcherConfig in Hrun.
    run_all. rewrite !app_nil_r. by eexists _, _.
Qed.

(** C10. Pre-epoch timestamps wrap modulo 2^64: [uint64(Time.Unix())] of a
    time before 1970 is [2^64 + Unix()], in the keywords [Insert] tags and
    in the bounds [FindB] and [FindB2] pass to [getBRCKWs]; so for a query
    from before the epoch to at or after it, the lower bound passed is above
    the upper bound, and no timestamp of the intended interval, converted
    as [Insert] converts it, lies between the two bounds. *)
Theorem pre_epoch_wraps (loc : string) (rec : Record_) (timeA timeB : Time) :
  - 2 ^ 63 <= Unix (Time_ rec) < 0 ->
  - 2 ^ 63 <= Unix timeA < 0 ->
  0 <= Unix timeB < 2 ^ 63 ->
  uint64 (Unix (Time_ rec)) = 2 ^ 64 + Unix (Time_ rec)
  /\ timeKWs rec
     = (fun i => makeTimeKW (Z.shiftr (2 ^ 64 + Unix (Time_ rec)) i) i) <$> seqZ 0 64
  /\ rangeKWs loc timeA timeB
     = (fun tKW => String.list_byte_of_string ("B:" +:+ loc +:+ ":" +:+ tKW))
         <$> getBRCKWs (2 ^ 64 + Unix timeA) (Unix timeB)
  /\ uint64 (Unix timeB) < uint64 (Unix timeA)
  /\ (forall t, Unix timeA <= t <= Unix timeB ->
        ~ (uint64 (Unix timeA) <= uint64 t <= uint64 (Unix timeB))).
Proof.
  intros Hr HA HB.
  assert (Hneg : forall x, - 2 ^ 63 <= x < 0 -> uint64 x = 2 ^ 64 + x).
  { intros x Hx. unfold uint64. symmetry.
    apply (Z.mod_unique x (2 ^ 64) (-1) (2 ^ 64 + x)); lia. }
  assert (Hpos : forall x, 0 <= x < 2 ^ 63 -> uint64 x = x).
  { intros x Hx. unfold uint64. apply Z.mod_small. lia. }
  unfold timeKWs, rangeKWs. rewrite (Hneg _ Hr), (Hneg _ HA), (Hpos _ HB).
  repeat split; try lia.
Qed.
End DelegationProofs.

(* ================================================================== *)
(** * 12. Concrete runs *)
(* ================================================================== *)

(** Run a computation of the small world, and give its outcome, world and
    calls as the witnesses of the goal. *)
Ltac run_toy :=
  lazymatch goal with
  | |- ex (fun _ => ex (fun _ => ex (fun _ => ?m ?w = _ /\ _))) =>
      let r := eval vm_compute in (m w) in
      lazymatch r with
      | (?o, ?w', ?evs) => exists o, w', evs; split; [vm_compute; reflexivity|]
      end
  end.

Section ConcreteRuns.
#[local] Existing Instance toyCarriers.



(** C3, witness. The second record of the batch has a policy label that
    does not compile: [Insert] returns that error, and has called the
    store neither for the first record nor for the second. *)
Lemma Insert_aborts_before_network_witness :
  exists o w' evs,
    Insert (C := toy emptyStore) toyOwner [rec1; recBad] 0%nat = (o, w', evs)
    /\ o = Fail (errors_New "empty policy")
    /\ Forall (fun ev => isRpc ev = false) evs.
Proof.
  run_toy.
  refine (proj1 (Insert_aborts_before_network (C := toy emptyStore)
                   toyOwner [rec1; recBad] 0%nat _ _ _ _)
            (CallBooleanToMSP "" false (Err (errors_New "empty policy")))
            (errors_New "empty policy") _ _ _).
  - vm_compute. reflexivity.
  - apply (list_elem_of_lookup_2 _ 261%nat). vm_compute. reflexivity.
  - reflexivity.
  - reflexivity.
Defined.

(** C4, witness. *)
Lemma retriveTkns_shape_witness :
  exists o w' evs,
    retriveTkns (C := toy emptyStore) toyOwner [] rec1 0%nat = (o, w', evs)
    /\ exists tkns,
         o = Ret tkns
         /\ length (timeKWs (C := toy emptyStore) rec1) = 64%nat
         /\ length tkns = 128%nat.
Proof.
  run_toy. eexists. split; [reflexivity|].
  refine (let H := retriveTkns_shape (C := toy emptyStore) toyOwner [] rec1 0%nat
                     _ _ _ _ in
          conj (proj1 H) (proj1 (proj2 (proj2 (proj2 H))))).
  vm_compute. reflexivity.
Defined.

(** C5, witness: two owners with the master secret keys 42 and 7. *)
Lemma delegation_hides_master_key_witness :
  ABESK (keys toyOwner) <> ABESK (keys toyOwner')
  /\ (DelegateKeys (C := toy emptyStore) toyOwner "grpA" 0%nat).1
     = (DelegateKeys (C := toy emptyStore) toyOwner' "grpA" 0%nat).1
  /\ (GenSearcherConfig (C := toy emptyStore) toyOwner "grpA" 0%nat).1
     = (GenSearcherConfig (C := toy emptyStore) toyOwner' "grpA" 0%nat).1.
Proof.
  split; [discriminate|].
  refine (let H := delegation_hides_master_key (C := toy emptyStore)
                     toyOwner toyOwner' "grpA" 0%nat _ _ _ in
          conj (proj1 H) (proj1 (proj2 H))); reflexivity.
Defined.

(** C6, counterexample. A store that returns one document to the query for
    [UserId] and another to the query for [UserId] and [Set]: the two
    functions return different [UserId]s for the same arguments. *)
Lemma FindB_FindB2_differ :
  exists w1 e1 w2 e2,
    FindB (C := toy (fieldStore [toy_doc "grpA" "u1"] [toy_doc "grpA" "u2"]))
      toyOwner "grpA" "loc1" t10 t11 0%nat
    = (Ret [Some (mkFindBResult "u1")], w1, e1)
    /\ FindB2 (C := toy (fieldStore [toy_doc "grpA" "u1"] [toy_doc "grpA" "u2"]))
         toyOwner "grpA" "loc1" t10 t11 0%nat
       = (Ret [Some (mkFindB2Result "u2" "grpA")], w2, e2).
Proof. eexists _, _, _, _. split; vm_compute; reflexivity. Qed.

(** C6, witness: a store that gives both queries the same answer. *)
Lemma FindB_FindB2_one_algorithm_witness :
  exists o2 w2 e2,
    FindB2 (C := toy (storeOf [toy_doc "grpA" "u1"])) toyOwner "grpA" "loc1"
      t10 t11 0%nat = (o2, w2, e2)
    /\ exists results2,
         o2 = Ret results2
         /\ exists results1 e1,
              FindB (C := toy (storeOf [toy_doc "grpA" "u1"])) toyOwner "grpA" "loc1"
                t10 t11 0%nat = (Ret results1, w2, e1)
              /\ fmap (M := list) (fmap (M := option) FindBResult_UserId) results1
                 = fmap (M := list) (fmap (M := option) FindB2Result_UserId) results2.
Proof.
  run_toy. eexists. split; [reflexivity|].
  refine (proj2 (proj2 (FindB_FindB2_one_algorithm
                          (C := toy (storeOf [toy_doc "grpA" "u1"]))
                          toyOwner "grpA" "loc1" t10 t11 0%nat)) _ _ _ _ _).
  - intros tkns w1 e1 _. unfold answersAlike. simpl. intros _.
    eexists. split; [reflexivity|]. split; [reflexivity|].
    repeat constructor. unfold sameUserId. simpl. eexists. split; reflexivity.
  - vm_compute. reflexivity.
Defined.

(** C7, witness. *)
Lemma one_policy_per_document_witness :
  exists o w' evs,
    encryptRecord (C := toy emptyStore) toyOwner rec1 0%nat = (o, w', evs)
    /\ (forall msg msp pk r,
           CallEncrypt msg msp pk r ∈ evs ->
           abe_BooleanToMSP (Collaborators := toy emptyStore) (Set_ rec1) false = Ok msp
           /\ pk = ABEPK (keys toyOwner))
    /\ (length (filter (fun ev => isBooleanToMSP ev) evs) <= 1)%nat.
Proof.
  run_toy.
  refine (let H := one_policy_per_document (C := toy emptyStore) toyOwner rec1 0%nat
                     _ _ _ _ in
          conj (proj1 H) (proj1 (proj2 H))).
  vm_compute. reflexivity.
Defined.

(** C8, witness: a store that answers ["duplicate key"] to an insert and
    ["index unavailable"] to a query. *)
Lemma store_status_surfaces_witness :
  (exists e,
      (Insert (C := toy refusingStore) toyOwner [rec1] 0%nat).1.1 = Fail e
      /\ Error e = "duplicate key")
  /\ (exists e,
         (FindB (C := toy refusingStore) toyOwner "grpA" "loc1" t10 t11 0%nat).1.1
         = Fail e
         /\ Error e = "index unavailable").
Proof.
  pose proof (store_status_surfaces (C := toy refusingStore) toyOwner [rec1]
                "grpA" "loc1" t10 t11 0%nat
                _ _ _ _ _ _ _ _ _
                (eq_refl : Insert (C := toy refusingStore) toyOwner [rec1] 0%nat
                           = ((Insert (C := toy refusingStore) toyOwner [rec1]
                                 0%nat).1.1, _, _))
                (eq_refl : FindB (C := toy refusingStore) toyOwner "grpA" "loc1"
                             t10 t11 0%nat
                           = ((FindB (C := toy refusingStore) toyOwner "grpA" "loc1"
                                 t10 t11 0%nat).1.1, _, _))
                (eq_refl : FindB2 (C := toy refusingStore) toyOwner "grpA" "loc1"
                             t10 t11 0%nat
                           = ((FindB2 (C := toy refusingStore) toyOwner "grpA" "loc1"
                                 t10 t11 0%nat).1.1, _, _)))
    as (HI & _ & HB & _).
  split.
  - refine (proj1 (HI _ (mkInsertResponse "duplicate key") _) _); [|discriminate].
    apply (list_elem_of_lookup_2 _ 133%nat). vm_compute. reflexivity.
  - refine (HB _ (Some (mkFindResponse "index unavailable" [])) _ _); [|discriminate].
    apply (list_elem_of_lookup_2 _ 1%nat). vm_compute. reflexivity.
Defined.


(** C10, witness: a record and a query starting five seconds before the
    epoch, the query ending ten seconds after it. *)
Lemma pre_epoch_wraps_witness :
  uint64 (-5) = 2 ^ 64 - 5 /\ uint64 10 < uint64 (-5).
Proof.
  pose proof (pre_epoch_wraps (C := toy emptyStore) "loc1"
                (mkRecord "u1" "loc1" "grpA" (mkTime (-5) 0 "UTC"))
                (mkTime (-5) 0 "UTC") (mkTime 10 0 "UTC")
                ltac:(simpl; lia) ltac:(simpl; lia) ltac:(simpl; lia))
    as (Hwrap & _ & _ & Hlt & _).
  split; [exact Hwrap | exact Hlt].
Defined.
End ConcreteRuns.
